(** * TravelTrackerMap: the map core of [src/App.tsx]

    A shallow embedding of the projection, the path builder, the label
    anchor and the pan/zoom gesture handlers of the travel tracker map,
    of the sanitation of the loaded features and of the toggling of
    visited countries, with the properties of its specification and
    further properties of the code stated over it.

    Numbers.  JavaScript numbers are modelled as exact rationals extended
    with the three IEEE-754 special values [+Infinity], [-Infinity] and
    [NaN].  Rounding, overflow and the sign of zero are not modelled: a
    finite result is the exact rational one and zero is the positive zero.
    Division by zero and the arithmetic of the special values follow
    IEEE-754, so that the places where the source divides by a width or a
    scale that may be zero keep their behaviour.

    Inputs.  The coordinates of the pointer, wheel and touch events and of
    the bounding rectangle of the map element are finite numbers, and a
    coordinate of a GeoJSON point is a finite number.  [Math.sqrt] and the
    conversion of a number to text are parameters of the definitions that
    use them.

    State.  The React state and the refs of the component form one record;
    a handler maps the record it finds to the record it leaves, and every
    event is handled on the record left by the event before it. *)

From Stdlib Require Import QArith Qabs Qminmax Qround Lqa Lia List String Ascii Bool ZArith DecimalString.
Import ListNotations.

Open Scope Q_scope.

(* ================================================================== *)
(** * JavaScript numbers *)

Module JsNum.

Inductive jsnum : Type :=
| Fin (q : Q)
| PInf
| NInf
| NaN.

Definition Qltb (a b : Q) : bool :=
  match a ?= b with Lt => true | _ => false end.

(** The infinity whose sign is the one of a non-zero finite number,
    given as the comparison of that number with zero; [0 * Infinity] and
    [0 / 0] are [NaN]. *)
Definition signed_inf (c : comparison) : jsnum :=
  match c with Eq => NaN | Lt => NInf | Gt => PInf end.

Definition neg (a : jsnum) : jsnum :=
  match a with
  | Fin q => Fin (- q)
  | PInf => NInf
  | NInf => PInf
  | NaN => NaN
  end.

Definition add (a b : jsnum) : jsnum :=
  match a, b with
  | NaN, _ | _, NaN => NaN
  | Fin p, Fin q => Fin (p + q)
  | PInf, NInf | NInf, PInf => NaN
  | PInf, _ | _, PInf => PInf
  | NInf, _ | _, NInf => NInf
  end.

Definition sub (a b : jsnum) : jsnum := add a (neg b).

Definition mul (a b : jsnum) : jsnum :=
  match a, b with
  | NaN, _ | _, NaN => NaN
  | Fin p, Fin q => Fin (p * q)
  | Fin p, PInf | PInf, Fin p => signed_inf (p ?= 0)
  | Fin p, NInf | NInf, Fin p => signed_inf (0 ?= p)
  | PInf, PInf | NInf, NInf => PInf
  | PInf, NInf | NInf, PInf => NInf
  end.

Definition div (a b : jsnum) : jsnum :=
  match a, b with
  | NaN, _ | _, NaN => NaN
  | Fin p, Fin q => if Qeq_bool q 0 then signed_inf (p ?= 0) else Fin (p / q)
  | Fin _, PInf | Fin _, NInf => Fin 0
  | PInf, Fin q => if Qltb q 0 then NInf else PInf
  | NInf, Fin q => if Qltb q 0 then PInf else NInf
  | _, _ => NaN
  end.

(** [a < b]; every comparison with [NaN] is false. *)
Definition ltb (a b : jsnum) : bool :=
  match a, b with
  | NaN, _ | _, NaN => false
  | Fin p, Fin q => Qltb p q
  | NInf, NInf => false
  | NInf, _ => true
  | _, NInf => false
  | PInf, _ => false
  | Fin _, PInf => true
  end.

Definition gtb (a b : jsnum) : bool := ltb b a.

Definition Math_max (a b : jsnum) : jsnum :=
  match a, b with
  | NaN, _ | _, NaN => NaN
  | _, _ => if ltb a b then b else a
  end.

Definition Math_min (a b : jsnum) : jsnum :=
  match a, b with
  | NaN, _ | _, NaN => NaN
  | _, _ => if ltb b a then b else a
  end.

Definition Math_abs (a : jsnum) : jsnum :=
  match a with
  | Fin q => Fin (Qabs q)
  | PInf | NInf => PInf
  | NaN => NaN
  end.

(** Truthiness of a number: [0] and [NaN] are falsy. *)
Definition truthy (a : jsnum) : bool :=
  match a with
  | Fin q => negb (Qeq_bool q 0)
  | NaN => false
  | PInf | NInf => true
  end.

Definition is_finite (a : jsnum) : bool :=
  match a with Fin _ => true | _ => false end.

End JsNum.

Import JsNum.

Coercion Fin : Q >-> jsnum.

Declare Scope js_scope.
Delimit Scope js_scope with js.
Bind Scope js_scope with jsnum.
Infix "+" := add : js_scope.
Infix "-" := sub : js_scope.
Infix "*" := mul : js_scope.
Infix "/" := div : js_scope.
Notation "- a" := (neg a) : js_scope.
Infix "<?" := ltb : js_scope.
Infix ">?" := gtb : js_scope.

(* ================================================================== *)
(** * Data model: GeoJSON features *)

(** An element of a ring.  The source receives it as [any]; the model
    has the two kinds of element that a GeoJSON file holds: an array of
    numbers (of any length) and [null].  The path builder treats every
    value that is no array as it treats [null]; the label anchor is
    modelled on arrays and [null] only. *)
Inductive Point : Type :=
| PNull
| PArr (coords : list Q).

Definition Ring : Type := list Point.

(** [geometry.type] with [geometry.coordinates]; the coordinates may be
    missing ([None]).  A geometry of another type keeps its tag and
    whether it carries coordinates, which the code never inspects. *)
Inductive Geometry : Type :=
| Polygon (coordinates : option (list Ring))
| MultiPolygon (coordinates : option (list (list Ring)))
| OtherGeometry (type : string) (has_coordinates : bool).

Record CountryProperties : Type := mkProperties {
  name : string;
  id : string
}.

Record GeoJSONFeature : Type := mkFeature {
  properties : CountryProperties;
  geometry : option Geometry
}.

(** Result of a function that can raise a [TypeError]. *)
Inductive outcome (A : Type) : Type :=
| Returns (a : A)
| Throws.
Arguments Returns {A} a.
Arguments Throws {A}.

(* ================================================================== *)
(** * Projection *)

Definition MAP_WIDTH : Q := 1000.
Definition MAP_HEIGHT : Q := 500.

Definition project (lon lat : jsnum) : jsnum * jsnum :=
  let x := ((lon + Fin 180) * (Fin MAP_WIDTH / Fin 360))%js in
  let y := ((- lat + Fin 90) * (Fin MAP_HEIGHT / Fin 180))%js in
  (x, y).

(* ================================================================== *)
(** * Path builder *)

Section PathBuilder.

(** Conversion of a number to text inside a template literal. *)
Variable toString : jsnum -> string.

Definition valid_point (point : Point) : bool :=
  match point with
  | PArr (_ :: _ :: _) => true
  | _ => false
  end.

(** One iteration of the [forEach] callback of [drawPolygon]. *)
Definition drawPoint (d : string) (point : Point) (i : nat) : string :=
  match point with
  | PArr (lon :: lat :: _) =>
      let '(x, y) := project (Fin lon) (Fin lat) in
      if Nat.eqb i 0
      then (d ++ "M" ++ toString x ++ "," ++ toString y)%string
      else (d ++ "L" ++ toString x ++ "," ++ toString y)%string
  | _ => d
  end.

Fixpoint forEach_point (coords : list Point) (i : nat) (d : string) : string :=
  match coords with
  | [] => d
  | point :: rest => forEach_point rest (S i) (drawPoint d point i)
  end.

Definition drawPolygon (coords : Ring) : string :=
  (forEach_point coords 0%nat "" ++ "Z ")%string.

Definition forEach_ring (rings : list Ring) (path : string) : string :=
  fold_left (fun path ring => (path ++ drawPolygon ring)%string) rings path.

Definition createPath (feature : GeoJSONFeature) : string :=
  match geometry feature with
  | None => ""%string
  | Some (Polygon None) | Some (MultiPolygon None)
  | Some (OtherGeometry _ false) => ""%string
  | Some (Polygon (Some coordinates)) => forEach_ring coordinates ""
  | Some (MultiPolygon (Some coordinates)) =>
      fold_left (fun path polygon => forEach_ring polygon path) coordinates ""%string
  | Some (OtherGeometry _ true) => ""%string
  end.

End PathBuilder.

(** ** The path as a sequence of drawing commands

    The same traversal, producing the commands instead of their text;
    [render] gives back the text. *)

Inductive PathCmd : Type :=
| MoveTo (x y : jsnum)
| LineTo (x y : jsnum)
| ClosePath.

Definition render_cmd (toString : jsnum -> string) (c : PathCmd) : string :=
  match c with
  | MoveTo x y => ("M" ++ toString x ++ "," ++ toString y)%string
  | LineTo x y => ("L" ++ toString x ++ "," ++ toString y)%string
  | ClosePath => "Z "%string
  end.

Fixpoint render (toString : jsnum -> string) (cs : list PathCmd) : string :=
  match cs with
  | [] => ""%string
  | c :: rest => (render_cmd toString c ++ render toString rest)%string
  end.

Definition point_cmd (point : Point) (i : nat) : list PathCmd :=
  match point with
  | PArr (lon :: lat :: _) =>
      let '(x, y) := project (Fin lon) (Fin lat) in
      if Nat.eqb i 0 then [MoveTo x y] else [LineTo x y]
  | _ => []
  end.

Fixpoint point_cmds (coords : list Point) (i : nat) : list PathCmd :=
  match coords with
  | [] => []
  | point :: rest => point_cmd point i ++ point_cmds rest (S i)
  end.

Definition ring_cmds (coords : Ring) : list PathCmd :=
  point_cmds coords 0%nat ++ [ClosePath].

Definition path_cmds (feature : GeoJSONFeature) : list PathCmd :=
  match geometry feature with
  | Some (Polygon (Some coordinates)) => flat_map ring_cmds coordinates
  | Some (MultiPolygon (Some coordinates)) =>
      flat_map (flat_map ring_cmds) coordinates
  | _ => []
  end.

Definition is_move (c : PathCmd) : bool :=
  match c with MoveTo _ _ => true | _ => false end.
Definition is_line (c : PathCmd) : bool :=
  match c with LineTo _ _ => true | _ => false end.
Definition is_close (c : PathCmd) : bool :=
  match c with ClosePath => true | _ => false end.

Definition count (f : PathCmd -> bool) (cs : list PathCmd) : nat :=
  List.length (filter f cs).



(* ================================================================== *)
(** * Label anchor *)

(** [p[i]] used as a number: a missing element is [undefined], which
    arithmetic turns into [NaN]. *)
Definition coord (p : list Q) (i : nat) : jsnum :=
  match nth_error p i with
  | Some q => Fin q
  | None => NaN
  end.

Record Box : Type := mkBox {
  minX : jsnum;
  maxX : jsnum;
  minY : jsnum;
  maxY : jsnum
}.

Definition empty_box : Box := mkBox PInf NInf PInf NInf.

(** The four conditional updates of the bounding box for one point. *)
Definition extend (b : Box) (pt : jsnum * jsnum) : Box :=
  let '(x, y) := pt in
  mkBox (if (x <? minX b)%js then x else minX b)
        (if (x >? maxX b)%js then x else maxX b)
        (if (y <? minY b)%js then y else minY b)
        (if (y >? maxY b)%js then y else maxY b).

(** [bestRing.forEach(p => ...)]: reading [p[0]] of [null] throws. *)
Fixpoint forEach_bbox (ring : list Point) (b : Box) : outcome Box :=
  match ring with
  | [] => Returns b
  | PNull :: _ => Throws
  | PArr p :: rest => forEach_bbox rest (extend b (project (coord p 0) (coord p 1)))
  end.

(** [coordinates.forEach(poly => ...)] of the MultiPolygon branch:
    [poly[0].length] throws when the polygon has no ring. *)
Fixpoint forEach_poly (polys : list (list Ring)) (maxLen : nat) (bestRing : Ring)
  : outcome Ring :=
  match polys with
  | [] => Returns bestRing
  | [] :: _ => Throws
  | (ring0 :: _) :: rest =>
      if (maxLen <? List.length ring0)%nat
      then forEach_poly rest (List.length ring0) ring0
      else forEach_poly rest maxLen bestRing
  end.

Definition anchor_of (bestRing : Ring) : outcome (option (jsnum * jsnum)) :=
  match bestRing with
  | [] => Returns None
  | _ :: _ =>
      match forEach_bbox bestRing empty_box with
      | Throws => Throws
      | Returns b =>
          Returns (Some (((minX b + maxX b) / Fin 2)%js,
                         ((minY b + maxY b) / Fin 2)%js))
      end
  end.

Definition getLabelPosition (feature : GeoJSONFeature)
  : outcome (option (jsnum * jsnum)) :=
  match geometry feature with
  | None => Throws
  | Some (Polygon None) | Some (MultiPolygon None) => Throws
  | Some (Polygon (Some coordinates)) =>
      anchor_of (match coordinates with [] => [] | ring0 :: _ => ring0 end)
  | Some (MultiPolygon (Some coordinates)) =>
      match forEach_poly coordinates 0%nat [] with
      | Throws => Throws
      | Returns bestRing => anchor_of bestRing
      end
  | Some (OtherGeometry _ _) => anchor_of []
  end.

(* ================================================================== *)
(** * Viewport transform and gesture state *)

Module Transform.
Record t : Type := mk { k : jsnum; x : jsnum; y : jsnum }.
End Transform.

Module Pos.
Record t : Type := mk { x : Q; y : Q }.
End Pos.

(** [getBoundingClientRect()] of the map element. *)
Module DOMRect.
Record t : Type := mk { left : Q; top : Q; width : Q; height : Q }.
End DOMRect.

Module MouseEvent.
Record t : Type := mk { clientX : Q; clientY : Q }.
End MouseEvent.

Module WheelEvent.
Record t : Type := mk { clientX : Q; clientY : Q; deltaY : Q }.
End WheelEvent.

Module Touch.
Record t : Type := mk { clientX : Q; clientY : Q }.
End Touch.

(** [e.touches] of a touchstart or touchmove event: at least one touch. *)
Module TouchList.
Record t : Type := mk { item0 : Touch.t; others : list Touch.t }.
End TouchList.

(** The argument of the handlers typed [React.MouseEvent | React.TouchEvent]. *)
Inductive PointerEvent : Type :=
| OfMouse (e : MouseEvent.t)
| OfTouch (touches : TouchList.t).

Definition clientX_of (e : PointerEvent) : Q :=
  match e with
  | OfMouse m => MouseEvent.clientX m
  | OfTouch l => Touch.clientX (TouchList.item0 l)
  end.

Definition clientY_of (e : PointerEvent) : Q :=
  match e with
  | OfMouse m => MouseEvent.clientY m
  | OfTouch l => Touch.clientY (TouchList.item0 l)
  end.

(** The state and the refs of the component that the handlers use. *)
Record State : Type := mkState {
  transform : Transform.t;
  isDragging : bool;
  lastMousePos : Pos.t;
  isDragRef : bool;
  pinchDistanceRef : option jsnum;
  pinchStartScaleRef : jsnum
}.

Definition initial : State :=
  mkState (Transform.mk (Fin 1) (Fin 0) (Fin 0)) false (Pos.mk 0 0) false None (Fin 1).

Definition setTransform (f : Transform.t -> Transform.t) (s : State) : State :=
  mkState (f (transform s)) (isDragging s) (lastMousePos s) (isDragRef s)
          (pinchDistanceRef s) (pinchStartScaleRef s).

Definition setIsDragging (b : bool) (s : State) : State :=
  mkState (transform s) b (lastMousePos s) (isDragRef s)
          (pinchDistanceRef s) (pinchStartScaleRef s).

Definition set_lastMousePos (p : Pos.t) (s : State) : State :=
  mkState (transform s) (isDragging s) p (isDragRef s)
          (pinchDistanceRef s) (pinchStartScaleRef s).

Definition set_isDragRef (b : bool) (s : State) : State :=
  mkState (transform s) (isDragging s) (lastMousePos s) b
          (pinchDistanceRef s) (pinchStartScaleRef s).

Definition set_pinchDistanceRef (d : option jsnum) (s : State) : State :=
  mkState (transform s) (isDragging s) (lastMousePos s) (isDragRef s)
          d (pinchStartScaleRef s).

Definition set_pinchStartScaleRef (v : jsnum) (s : State) : State :=
  mkState (transform s) (isDragging s) (lastMousePos s) (isDragRef s)
          (pinchDistanceRef s) v.

(** [Math.max(1, Math.min(8, v))]. *)
Definition clamp_scale (v : jsnum) : jsnum := Math_max (Fin 1) (Math_min (Fin 8) v).

(** The updater of the three zoom handlers: new scale [newK], new
    translation keeping the plane point [(fx, fy)] in place. *)
Definition zoom_about (fx fy newK : jsnum) (prev : Transform.t) : Transform.t :=
  let newX := (fx - (fx - Transform.x prev) * (newK / Transform.k prev))%js in
  let newY := (fy - (fy - Transform.y prev) * (newK / Transform.k prev))%js in
  Transform.mk newK newX newY.

Definition handleZoom (factor : jsnum) (s : State) : State :=
  setTransform (fun prev =>
    let newK := clamp_scale (Transform.k prev * factor)%js in
    let cx := (Fin MAP_WIDTH / Fin 2)%js in
    let cy := (Fin MAP_HEIGHT / Fin 2)%js in
    zoom_about cx cy newK prev) s.

Definition handleResetZoom (s : State) : State :=
  setTransform (fun _ => Transform.mk (Fin 1) (Fin 0) (Fin 0)) s.

Definition handleWheel (mapRef : option DOMRect.t) (e : WheelEvent.t) (s : State)
  : State :=
  match mapRef with
  | None => s
  | Some rect =>
      let scaleFactor :=
        if (Fin (WheelEvent.deltaY e) >? Fin 0)%js then Fin 0.9 else Fin 1.1 in
      setTransform (fun prev =>
        let newK := clamp_scale (Transform.k prev * scaleFactor)%js in
        let mx := (Fin (WheelEvent.clientX e) - Fin (DOMRect.left rect))%js in
        let my := (Fin (WheelEvent.clientY e) - Fin (DOMRect.top rect))%js in
        let svgMx := (mx * (Fin MAP_WIDTH / Fin (DOMRect.width rect)))%js in
        let svgMy := (my * (Fin MAP_HEIGHT / Fin (DOMRect.height rect)))%js in
        zoom_about svgMx svgMy newK prev) s
  end.

Definition handleMouseDown (e : PointerEvent) (s : State) : State :=
  set_lastMousePos (Pos.mk (clientX_of e) (clientY_of e))
    (set_isDragRef false (setIsDragging true s)).

Definition handleMouseMove (mapRef : option DOMRect.t) (e : PointerEvent) (s : State)
  : State :=
  if negb (isDragging s) then s
  else
    let clientX := clientX_of e in
    let clientY := clientY_of e in
    let dx := (Fin clientX - Fin (Pos.x (lastMousePos s)))%js in
    let dy := (Fin clientY - Fin (Pos.y (lastMousePos s)))%js in
    let s1 :=
      if (Math_abs dx >? Fin 2)%js || (Math_abs dy >? Fin 2)%js
      then set_isDragRef true s else s in
    let scaleRatio :=
      match mapRef with
      | None => Fin 1
      | Some rect => (Fin MAP_WIDTH / Fin (DOMRect.width rect))%js
      end in
    let s2 :=
      setTransform (fun prev =>
        Transform.mk (Transform.k prev)
                     (Transform.x prev + dx * scaleRatio)%js
                     (Transform.y prev + dy * scaleRatio)%js) s1 in
    set_lastMousePos (Pos.mk clientX clientY) s2.

Definition handleMouseUp (s : State) : State := setIsDragging false s.

(** [handleCountryClick]: [Some feature] when [toggleCountry(feature)] is
    called, [None] when the handler returns before it. *)
Definition handleCountryClick (feature : GeoJSONFeature) (s : State)
  : option GeoJSONFeature :=
  if isDragRef s then None else Some feature.

Section Touch.

(** [Math.sqrt] on the non-negative rationals; the handlers depend on no
    property of it. *)
Variable sqrtQ : Q -> Q.

Definition Math_sqrt (a : jsnum) : jsnum :=
  match a with
  | Fin q => if Qltb q 0 then NaN else Fin (sqrtQ q)
  | PInf => PInf
  | NInf | NaN => NaN
  end.

Definition getTouchDistance (a b : Touch.t) : jsnum :=
  let dx := (Fin (Touch.clientX a) - Fin (Touch.clientX b))%js in
  let dy := (Fin (Touch.clientY a) - Fin (Touch.clientY b))%js in
  Math_sqrt (dx * dx + dy * dy)%js.

Definition getTouchMidpoint (a b : Touch.t) : jsnum * jsnum :=
  (((Fin (Touch.clientX a) + Fin (Touch.clientX b)) / Fin 2)%js,
   ((Fin (Touch.clientY a) + Fin (Touch.clientY b)) / Fin 2)%js).

Definition handleTouchStart (touches : TouchList.t) (s : State) : State :=
  match TouchList.others touches with
  | [b] =>
      let a := TouchList.item0 touches in
      setIsDragging false
        (set_isDragRef false
          (set_pinchStartScaleRef (Transform.k (transform s))
            (set_pinchDistanceRef (Some (getTouchDistance a b)) s)))
  | _ => handleMouseDown (OfTouch touches) s
  end.

(** The two-finger branch of [handleTouchMove]. *)
Definition pinch (rect : DOMRect.t) (a b : Touch.t) (pinchDistance : jsnum) (s : State)
  : State :=
  let currentDistance := getTouchDistance a b in
  let scaleFactor := (currentDistance / pinchDistance)%js in
  let desiredScale := clamp_scale (pinchStartScaleRef s * scaleFactor)%js in
  let midpoint := getTouchMidpoint a b in
  let mx := (fst midpoint - Fin (DOMRect.left rect))%js in
  let my := (snd midpoint - Fin (DOMRect.top rect))%js in
  let svgMx := (mx * (Fin MAP_WIDTH / Fin (DOMRect.width rect)))%js in
  let svgMy := (my * (Fin MAP_HEIGHT / Fin (DOMRect.height rect)))%js in
  setTransform (zoom_about svgMx svgMy desiredScale) s.

Definition handleTouchMove (mapRef : option DOMRect.t) (touches : TouchList.t)
  (s : State) : State :=
  match TouchList.others touches, pinchDistanceRef s, mapRef with
  | [b], Some pinchDistance, Some rect =>
      if truthy pinchDistance
      then pinch rect (TouchList.item0 touches) b pinchDistance s
      else handleMouseMove mapRef (OfTouch touches) s
  | _, _, _ => handleMouseMove mapRef (OfTouch touches) s
  end.

Definition handleTouchEnd (touches : list Touch.t) (s : State) : State :=
  let s1 :=
    if (List.length touches <? 2)%nat
    then set_pinchStartScaleRef (Transform.k (transform s))
           (set_pinchDistanceRef None s)
    else s in
  handleMouseUp s1.

(** ** The component as a machine over its input events

    Every event comes with the state of [mapRef.current] at that moment:
    [None] when the element is not mounted, its bounding rectangle
    otherwise.  A step returns the features handed to [toggleCountry]. *)

Inductive Event : Type :=
| ZoomButton (factor : Q)
| ResetButton
| Wheel (e : WheelEvent.t)
| MouseDown (e : MouseEvent.t)
| MouseMove (e : MouseEvent.t)
| MouseUp
| MouseLeave
| TouchStart (touches : TouchList.t)
| TouchMove (touches : TouchList.t)
| TouchEnd (touches : list Touch.t)
| CountryClick (feature : GeoJSONFeature).

Definition step (mapRef : option DOMRect.t) (ev : Event) (s : State)
  : State * list GeoJSONFeature :=
  match ev with
  | ZoomButton factor => (handleZoom (Fin factor) s, [])
  | ResetButton => (handleResetZoom s, [])
  | Wheel e => (handleWheel mapRef e s, [])
  | MouseDown e => (handleMouseDown (OfMouse e) s, [])
  | MouseMove e => (handleMouseMove mapRef (OfMouse e) s, [])
  | MouseUp | MouseLeave => (handleMouseUp s, [])
  | TouchStart touches => (handleTouchStart touches s, [])
  | TouchMove touches => (handleTouchMove mapRef touches s, [])
  | TouchEnd touches => (handleTouchEnd touches s, [])
  | CountryClick feature =>
      (s, match handleCountryClick feature s with
          | Some f => [f]
          | None => []
          end)
  end.

Fixpoint run (inputs : list (option DOMRect.t * Event)) (s : State)
  : State * list GeoJSONFeature :=
  match inputs with
  | [] => (s, [])
  | (mapRef, ev) :: rest =>
      let '(s1, out1) := step mapRef ev s in
      let '(s2, out2) := run rest s1 in
      (s2, out1 ++ out2)
  end.

End Touch.

(* ================================================================== *)
(** * Sanitation of the loaded features *)

(** A feature as it is fetched.  A member that may be missing is an
    option; the members read here are strings when they are present. *)
Module RawProperties.
Record t : Type := mk {
  id : option string;
  iso_a3 : option string;
  name : option string
}.
End RawProperties.

Module RawFeature.
Record t : Type := mk {
  id : option string;
  properties : option RawProperties.t;
  geometry : option Geometry
}.
End RawFeature.

(** Truthiness of a string: the empty string is falsy. *)
Definition str_truthy (s : string) : bool := negb (String.eqb s "").

(** [a || b] where both may be missing. *)
Definition or_else (a b : option string) : option string :=
  match a with
  | Some s => if str_truthy s then a else b
  | None => b
  end.

(** [a || b] where [b] is a string. *)
Definition or_string (a : option string) (b : string) : string :=
  match a with
  | Some s => if str_truthy s then s else b
  | None => b
  end.

(** [f.properties?.member]. *)
Definition optional_property (f : RawFeature.t)
  (member : RawProperties.t -> option string) : option string :=
  match RawFeature.properties f with
  | Some p => member p
  | None => None
  end.

(** The decimal text of an array index. *)
Definition index_toString (index : nat) : string :=
  NilZero.string_of_uint (Nat.to_uint index).

(** The callback of [data.features.map] in [fetchMapData]. *)
Definition sanitizeFeature (f : RawFeature.t) (index : nat) : GeoJSONFeature :=
  let rawId :=
    or_string
      (or_else
         (or_else
            (or_else (RawFeature.id f) (optional_property f RawProperties.id))
            (optional_property f RawProperties.iso_a3))
         (optional_property f RawProperties.name))
      ("unknown-" ++ index_toString index)%string in
  let name := or_string (optional_property f RawProperties.name) "Unknown Country" in
  let name := if String.eqb name "Taiwan" then "Taiwan (China)"%string else name in
  mkFeature (mkProperties name rawId) (RawFeature.geometry f).

Fixpoint map_index {A B : Type} (f : A -> nat -> B) (l : list A) (index : nat)
  : list B :=
  match l with
  | [] => []
  | a :: rest => f a index :: map_index f rest (S index)
  end.

(** The test of the [filter] that follows the [map]. *)
Definition kept (f : GeoJSONFeature) : bool :=
  str_truthy (id (properties f)) && str_truthy (name (properties f))
  && match geometry f with Some _ => true | None => false end.

Definition sanitizedFeatures (features : list RawFeature.t) : list GeoJSONFeature :=
  filter kept (map_index sanitizeFeature features 0).

(* ================================================================== *)
(** * Visited countries *)

Module VisitedCountry.
Record t : Type := mk { id : string; name : string; visitedAt : Z }.
End VisitedCountry.

(** [Record<string, VisitedCountry>]: the own entries of a plain object
    in the order in which [Object.keys] lists them: the keys that are
    array indices first, in ascending order, then the other keys in the
    order of their insertion.  The keys of an object are distinct. *)
Definition Visited : Type := list (string * VisitedCountry.t).

(** The own entry of [key], if there is one. *)
Fixpoint obj_get (o : Visited) (key : string) : option VisitedCountry.t :=
  match o with
  | [] => None
  | (k, v) :: rest => if String.eqb k key then Some v else obj_get rest key
  end.

(** The names of the members that every plain object inherits from
    [Object.prototype]; each of them is truthy. *)
Definition prototype_members : list string :=
  ["constructor"; "__defineGetter__"; "__defineSetter__"; "hasOwnProperty";
   "__lookupGetter__"; "__lookupSetter__"; "isPrototypeOf";
   "propertyIsEnumerable"; "toString"; "valueOf"; "__proto__";
   "toLocaleString"]%string.

Definition is_prototype_member (key : string) : bool :=
  existsb (String.eqb key) prototype_members.

(** [!!o[key]]: an own entry is an object, and what is not found among
    the own entries is looked up in [Object.prototype]. *)
Definition truthy_member (o : Visited) (key : string) : bool :=
  match obj_get o key with
  | Some _ => true
  | None => is_prototype_member key
  end.

(** [delete o[key]]. *)
Definition obj_delete (o : Visited) (key : string) : Visited :=
  filter (fun entry => negb (String.eqb (fst entry) key)) o.

(** The value of a string of decimal digits. *)
Fixpoint digits_value (s : string) (acc : N) : option N :=
  match s with
  | EmptyString => Some acc
  | String c rest =>
      let n := N_of_ascii c in
      if (48 <=? n)%N && (n <=? 57)%N
      then digits_value rest (acc * 10 + (n - 48))%N
      else None
  end.

(** The array index that a key is: the canonical decimal text of an
    integer below [2^32 - 1]. *)
Definition array_index (key : string) : option N :=
  match key with
  | EmptyString => None
  | String c rest =>
      if Ascii.eqb c "0" && negb (String.eqb rest "") then None
      else
        match digits_value key 0 with
        | Some n => if (n <? 4294967295)%N then Some n else None
        | None => None
        end
  end.

(** A new entry whose key is the array index [n]: after the array
    indices below [n] and before every other key. *)
Fixpoint obj_insert_index (o : Visited) (n : N) (key : string)
  (v : VisitedCountry.t) : Visited :=
  match o with
  | [] => [(key, v)]
  | (k, v0) :: rest =>
      match array_index k with
      | Some m =>
          if (m <? n)%N then (k, v0) :: obj_insert_index rest n key v
          else (key, v) :: o
      | None => (key, v) :: o
      end
  end.

Fixpoint obj_replace (o : Visited) (key : string) (v : VisitedCountry.t) : Visited :=
  match o with
  | [] => []
  | (k, v0) :: rest =>
      if String.eqb k key then (key, v) :: rest else (k, v0) :: obj_replace rest key v
  end.

(** [o[key] = v], for a key other than [__proto__]: the entry of a key
    that the object has keeps its place; a new key that is an array index
    goes to its place among the array indices, another new key goes last. *)
Definition obj_set (o : Visited) (key : string) (v : VisitedCountry.t) : Visited :=
  match obj_get o key with
  | Some _ => obj_replace o key v
  | None =>
      match array_index key with
      | Some n => obj_insert_index o n key v
      | None => o ++ [(key, v)]
      end
  end.

Definition Object_keys (o : Visited) : list string := map fst o.

Record User : Type := mkUser { uid : string }.

(** What a toggle asks for: nothing, the new value of [visited] (set as
    state and written to local storage), or a write to the document of
    the country in the remote store. *)
Inductive ToggleEffect : Type :=
| NoEffect
| SetVisited (newVisited : Visited)
| DeleteDoc (docRef : list string)
| SetDoc (docRef : list string) (data : VisitedCountry.t).

Section Toggle.

Variable firebaseAvailable : bool.
Variable appId : string.

(** [toggleById(id, name)], with [Date.now()] as [now]. *)
Definition toggleById (user : option User) (visited : Visited) (now : Z)
  (id name : string) : ToggleEffect :=
  match user with
  | None => NoEffect
  | Some u =>
      if negb (str_truthy id) then NoEffect
      else
        let isVisited := truthy_member visited id in
        if negb firebaseAvailable then
          SetVisited
            (if isVisited then obj_delete visited id
             else obj_set visited id (VisitedCountry.mk id name now))
        else
          let docRef := ["artifacts"; appId; "users"; uid u; "visited"; id]%string in
          if isVisited then DeleteDoc docRef
          else SetDoc docRef (VisitedCountry.mk id name now)
  end.

(** [toggleCountry(feature)]. *)
Definition toggleCountry (user : option User) (visited : Visited) (now : Z)
  (feature : GeoJSONFeature) : ToggleEffect :=
  match user with
  | None => NoEffect
  | Some u =>
      let id := id (properties feature) in
      let name := name (properties feature) in
      if negb (str_truthy id) then NoEffect
      else
        let isVisited := truthy_member visited id in
        let name_or_id := if str_truthy name then name else id in
        if negb firebaseAvailable then
          SetVisited
            (if isVisited then obj_delete visited id
             else obj_set visited id (VisitedCountry.mk id name_or_id now))
        else
          let docRef := ["artifacts"; appId; "users"; uid u; "visited"; id]%string in
          if isVisited then DeleteDoc docRef
          else SetDoc docRef (VisitedCountry.mk id name_or_id now)
  end.

End Toggle.

(** [Object.keys(visited).length]. *)
Definition visitedCount (visited : Visited) : nat := List.length (Object_keys visited).

(* ================================================================== *)
(** * Attributes of the rendered map *)

(** [strokeWidth] of a country path and [fontSize] of a label. *)
Definition strokeWidth (t : Transform.t) : jsnum := (Fin 0.5 / Transform.k t)%js.
Definition fontSize (t : Transform.t) : jsnum := (Fin 8 / Transform.k t)%js.

(* ================================================================== *)
(** * Vocabulary of the properties *)

(** ** Zoom and scale *)

(** [Math.max(1, Math.min(8, v))] on a finite number. *)
Definition Qclamp (v : Q) : Q :=
  let m := if Qltb v 8 then v else 8 in
  if Qltb 1 m then m else 1.

(** [zoomed k x y fx fy v t']: [t'] is the transform [{k, x, y}] zoomed
    about the plane point [(fx, fy)] to the scale [clamp(v, 1, 8)], and
    the plane coordinate mapped to the focal point is the same under both
    transforms. *)
Definition zoomed (k x y fx fy v : Q) (t' : Transform.t) : Prop :=
  exists k' x' y' : Q,
    t' = Transform.mk (Fin k') (Fin x') (Fin y') /\
    k' == Qmax 1 (Qmin 8 v) /\
    x' == fx - (fx - x) * (k' / k) /\
    y' == fy - (fy - y) * (k' / k) /\
    (fx - x') / k' == (fx - x) / k /\
    (fy - y') / k' == (fy - y) / k.

(** The scale factor of a wheel event. *)
Definition wheel_factor (e : WheelEvent.t) : Q :=
  if Qltb 0 (WheelEvent.deltaY e) then 0.9 else 1.1.

(** The plane position of a screen position on the map element. *)
Definition plane_x (rect : DOMRect.t) (clientX : Q) : Q :=
  (clientX - DOMRect.left rect) * (MAP_WIDTH / DOMRect.width rect).
Definition plane_y (rect : DOMRect.t) (clientY : Q) : Q :=
  (clientY - DOMRect.top rect) * (MAP_HEIGHT / DOMRect.height rect).

Definition scale_in_range (t : Transform.t) : Prop :=
  exists k : Q, Transform.k t = Fin k /\ 1 <= k <= 8.

(** What the handlers maintain: the scale is a finite number of [1, 8]
    and the pinch baseline scale, a copy of an earlier scale, is finite. *)
Definition scale_invariant (s : State) : Prop :=
  scale_in_range (transform s) /\ exists k0 : Q, pinchStartScaleRef s = Fin k0.

(** ** Pointer sessions *)

(** A move to [e] from the pointer position [last] exceeds the threshold:
    more than 2 pixels in either axis. *)
Definition exceeds (last : Pos.t) (e : MouseEvent.t) : bool :=
  Qltb 2 (Qabs (MouseEvent.clientX e - Pos.x last)) ||
  Qltb 2 (Qabs (MouseEvent.clientY e - Pos.y last)).

Definition pos_of (e : MouseEvent.t) : Pos.t :=
  Pos.mk (MouseEvent.clientX e) (MouseEvent.clientY e).

(** Some move of the sequence exceeds the threshold, each move measured
    from the position of the one before it, the first from [last]. *)
Fixpoint some_move_exceeds (last : Pos.t) (moves : list MouseEvent.t) : bool :=
  match moves with
  | [] => false
  | e :: rest => exceeds last e || some_move_exceeds (pos_of e) rest
  end.

(** A pointer session on a country: down, moves, up, and the click the
    browser then dispatches to the path under the pointer. *)
Definition session (down : MouseEvent.t) (moves : list (option DOMRect.t * MouseEvent.t))
  (mapRef : option DOMRect.t) (feature : GeoJSONFeature)
  : list (option DOMRect.t * Event) :=
  (mapRef, MouseDown down)
    :: map (fun m => (fst m, MouseMove (snd m))) moves
    ++ [(mapRef, MouseUp); (mapRef, CountryClick feature)].

Definition is_pointer_down (ev : Event) : bool :=
  match ev with
  | MouseDown _ | TouchStart _ => true
  | _ => false
  end.

(** The flag is set at some moment of the session when the movement is
    measured from the down-position. *)
Definition exceeds_from_down (down : MouseEvent.t) (moves : list MouseEvent.t) : bool :=
  existsb (exceeds (pos_of down)) moves.

(** The move [dx] pixels to the right of the down-position. *)
Definition right_of (down : MouseEvent.t) (dx : Q) : MouseEvent.t :=
  MouseEvent.mk (MouseEvent.clientX down + dx) (MouseEvent.clientY down).

Definition finite_transform (t : Transform.t) : bool :=
  is_finite (Transform.k t) && is_finite (Transform.x t) && is_finite (Transform.y t).

(** ** Features, rings and bounding boxes *)

Definition polygon_feature (props : CountryProperties) (rings : list Ring)
  : GeoJSONFeature :=
  mkFeature props (Some (Polygon (Some rings))).

Definition multipolygon_feature (props : CountryProperties) (polys : list (list Ring))
  : GeoJSONFeature :=
  mkFeature props (Some (MultiPolygon (Some polys))).

Definition valid_count (ring : Ring) : nat := List.length (filter valid_point ring).

(** The projection on finite coordinates. *)
Definition planeQ (lon lat : Q) : Q * Q :=
  ((lon + 180) * (MAP_WIDTH / 360), (- lat + 90) * (MAP_HEIGHT / 180)).

(** The plane points of a ring whose points all carry two coordinates. *)
Definition plane_points (ring : Ring) : list (Q * Q) :=
  flat_map (fun point =>
    match point with
    | PArr (lon :: lat :: _) => [planeQ lon lat]
    | _ => []
    end) ring.

Definition all_valid (ring : Ring) : Prop :=
  Forall (fun point => valid_point point = true) ring.

Definition least (m : Q) (l : list Q) : Prop :=
  In m l /\ forall v : Q, In v l -> m <= v.

Definition greatest (m : Q) (l : list Q) : Prop :=
  In m l /\ forall v : Q, In v l -> v <= m.

(** [best] is the first of [rings] with the greatest vertex count. *)
Definition dominant (rings : list Ring) (best : Ring) : Prop :=
  exists i : nat,
    nth_error rings i = Some best /\
    (forall (j : nat) (r : Ring),
       nth_error rings j = Some r -> (List.length r <= List.length best)%nat) /\
    (forall (j : nat) (r : Ring),
       (j < i)%nat -> nth_error rings j = Some r ->
       (List.length r < List.length best)%nat).

Definition first_rings (polys : list (list Ring)) : list Ring := map (hd []) polys.

Definition box_of (a b c d : Q) : Box := mkBox (Fin a) (Fin b) (Fin c) (Fin d).

(** ** Concrete inputs of the examples *)

(** A square root: exact on the squares of integers. *)
Definition isqrtQ (q : Q) : Q := inject_Z (Z.sqrt (Qfloor q)).

Definition triangle : Ring := [PArr [0; 0]; PArr [36; 0]; PArr [0; 18]].

Definition island : GeoJSONFeature :=
  mkFeature (mkProperties "Island" "ISL") (Some (Polygon (Some [triangle]))).

Definition rect_1000_500 : DOMRect.t := DOMRect.mk 0 0 1000 500.
Definition rect_zero_width : DOMRect.t := DOMRect.mk 0 0 0 500.

(** A number conversion: an integer as JavaScript prints it, another
    rational as a fraction. *)
Definition show_number (a : jsnum) : string :=
  match a with
  | Fin q =>
      let r := Qred q in
      match Qden r with
      | xH => NilZero.string_of_int (Z.to_int (Qnum r))
      | d => (NilZero.string_of_int (Z.to_int (Qnum r)) ++ "/"
              ++ NilZero.string_of_int (Z.to_int (Zpos d)))%string
      end
  | PInf => "Infinity"%string
  | NInf => "-Infinity"%string
  | NaN => "NaN"%string
  end.

(** ** Geographic domain *)

(** A point with a longitude in [-180, 180] and a latitude in [-90, 90]. *)
Definition in_domain (point : Point) : Prop :=
  match point with
  | PArr (lon :: lat :: _) => (-180 <= lon <= 180) /\ (-90 <= lat <= 90)
  | _ => False
  end.

(** An array with fewer than two coordinates. *)
Definition short_array (point : Point) : Prop :=
  exists c : list Q, point = PArr c /\ (List.length c < 2)%nat.

(** ** Sanitation and visited countries *)

Definition has_geometry (g : option Geometry) : bool :=
  match g with Some _ => true | None => false end.

(** The value of [visited] after a toggle: the effect on the remote store
    leaves it as it is. *)
Definition apply_effect (visited : Visited) (e : ToggleEffect) : Visited :=
  match e with
  | SetVisited newVisited => newVisited
  | _ => visited
  end.

(** The value of [visited] after the clicks that reached [toggleCountry],
    in the order they came. *)
Definition toggle_all (firebaseAvailable : bool) (appId : string)
  (user : option User) (now : Z) (visited : Visited)
  (clicked : list GeoJSONFeature) : Visited :=
  fold_left
    (fun v feature =>
       apply_effect v (toggleCountry firebaseAvailable appId user v now feature))
    clicked visited.

Definition is_visited (visited : Visited) (key : string) : bool :=
  match obj_get visited key with Some _ => true | None => false end.

(** ** Sequences of gestures *)

(** [t'] is the finite transform [{k, x, y}], up to the equality of
    rationals. *)
Definition same_transform (k x y : Q) (t' : Transform.t) : Prop :=
  exists k' x' y' : Q,
    t' = Transform.mk (Fin k') (Fin x') (Fin y') /\ k' == k /\ x' == x /\ y' == y.

Definition is_move_event (ev : Event) : bool :=
  match ev with
  | MouseMove _ | TouchMove _ => true
  | _ => false
  end.

Definition is_touch_move (ev : Event) : bool :=
  match ev with
  | TouchMove _ => true
  | _ => false
  end.

(** The ratio of [handleMouseMove]: 1 without the map element. *)
Definition pan_ratio (mapRef : option DOMRect.t) : Q :=
  match mapRef with
  | None => 1
  | Some rect => MAP_WIDTH / DOMRect.width rect
  end.

Definition has_width (mapRef : option DOMRect.t) : Prop :=
  match mapRef with
  | None => True
  | Some rect => ~ DOMRect.width rect == 0
  end.

(** A press followed by moves, all with the same map element. *)
Definition press_and_moves (mapRef : option DOMRect.t) (down : MouseEvent.t)
  (moves : list MouseEvent.t) : list (option DOMRect.t * Event) :=
  (mapRef, MouseDown down) :: map (fun e => (mapRef, MouseMove e)) moves.

Definition zoom_clicks (clicks : list (option DOMRect.t * Q))
  : list (option DOMRect.t * Event) :=
  map (fun c => (fst c, ZoomButton (snd c))) clicks.

(** A two-finger gesture is under way, with the baseline distance [d0]
    and the baseline scale [k0]. *)
Definition pinching (d0 k0 : Q) (s : State) : Prop :=
  pinchDistanceRef s = Some (Fin d0) /\
  pinchStartScaleRef s = Fin k0 /\
  isDragging s = false /\
  isDragRef s = false.

(** Number of rings and of valid points of a feature that has
    coordinates. *)
Definition rings_of (feature : GeoJSONFeature) : list Ring :=
  match geometry feature with
  | Some (Polygon (Some coordinates)) => coordinates
  | Some (MultiPolygon (Some coordinates)) => List.concat coordinates
  | _ => []
  end.

(** The ring begins with a valid point. *)
Definition starts_valid (ring : Ring) : bool :=
  match ring with
  | point :: _ => valid_point point
  | [] => false
  end.

(** ** One finger and the mouse *)

(** The touch list with one finger at the position of a mouse event. *)
Definition touch_at (e : MouseEvent.t) : TouchList.t :=
  TouchList.mk (Touch.mk (MouseEvent.clientX e) (MouseEvent.clientY e)) [].

(** The event of one finger that stands for a mouse event. *)
Definition as_touch (ev : Event) : Event :=
  match ev with
  | MouseDown e => TouchStart (touch_at e)
  | MouseMove e => TouchMove (touch_at e)
  | MouseUp => TouchEnd []
  | _ => ev
  end.

Definition is_touch_event (ev : Event) : bool :=
  match ev with
  | TouchStart _ | TouchMove _ | TouchEnd _ => true
  | _ => false
  end.

(** Two states with the same transform and the same drag bookkeeping. *)
Definition same_view (s s' : State) : Prop :=
  transform s = transform s' /\
  isDragging s = isDragging s' /\
  lastMousePos s = lastMousePos s' /\
  isDragRef s = isDragRef s'.

(** A member that is missing or the empty string. *)
Definition absent (o : option string) : Prop := o = None \/ o = Some ""%string.

(* ================================================================== *)
(** * Arithmetic on finite numbers *)

Lemma Qltb_lt (a b : Q) : Qltb a b = true <-> a < b.
Proof.
  unfold Qltb. rewrite Qlt_alt.
  destruct (a ?= b); split; intros H; try reflexivity; discriminate H.
Qed.

Lemma Qltb_ge (a b : Q) : Qltb a b = false <-> b <= a.
Proof.
  split; intros H.
  - apply Qnot_lt_le. intros Hlt. apply Qltb_lt in Hlt. congruence.
  - destruct (Qltb a b) eqn:E; [|reflexivity].
    apply Qltb_lt in E. exfalso. apply (Qlt_not_le _ _ E H).
Qed.

Lemma Qltb_cases (a b : Q) :
  (Qltb a b = true /\ a < b) \/ (Qltb a b = false /\ b <= a).
Proof.
  destruct (Qltb a b) eqn:E.
  - left. split; [reflexivity | now apply Qltb_lt].
  - right. split; [reflexivity | now apply Qltb_ge].
Qed.

Lemma div_Fin (p q : Q) : ~ q == 0 -> (Fin p / Fin q)%js = Fin (p / q).
Proof.
  intros H. cbn. destruct (Qeq_bool q 0) eqn:E; [|reflexivity].
  apply Qeq_bool_iff in E. contradiction.
Qed.

Lemma clamp_scale_Fin (v : Q) : clamp_scale (Fin v) = Fin (Qclamp v).
Proof.
  unfold clamp_scale, Qclamp, Math_min, Math_max, ltb.
  destruct (Qltb v 8); destruct (Qltb 1 _); reflexivity.
Qed.

Lemma Qclamp_bounds (v : Q) : 1 <= Qclamp v <= 8.
Proof.
  unfold Qclamp.
  destruct (Qltb_cases v 8) as [[-> H8] | [-> H8]];
    [destruct (Qltb_cases 1 v) as [[-> H1] | [-> H1]]
    | destruct (Qltb_cases 1 8) as [[-> H1] | [-> H1]]]; lra.
Qed.

Lemma Qclamp_max_min (v : Q) : Qclamp v == Qmax 1 (Qmin 8 v).
Proof.
  unfold Qclamp.
  destruct (Qltb_cases v 8) as [[-> H8] | [-> H8]].
  - rewrite (Q.min_r 8 v) by lra.
    destruct (Qltb_cases 1 v) as [[-> H1] | [-> H1]].
    + rewrite Q.max_r by lra. reflexivity.
    + rewrite Q.max_l by lra. reflexivity.
  - rewrite (Q.min_l 8 v) by lra.
    destruct (Qltb_cases 1 8) as [[-> H1] | [-> H1]]; [|lra].
    rewrite Q.max_r by lra. reflexivity.
Qed.

Lemma sum_squares_not_negative (a b : Q) : Qltb (a * a + b * b) 0 = false.
Proof. apply Qltb_ge. nra. Qed.

(* ================================================================== *)
(** * Zoom keeps the focal point in place *)

Lemma zoom_about_zoomed (k x y fx fy v : Q) :
  0 < k ->
  zoomed k x y fx fy v
    (zoom_about (Fin fx) (Fin fy) (clamp_scale (Fin v))
       (Transform.mk (Fin k) (Fin x) (Fin y))).
Proof.
  intros Hk.
  assert (Hk0 : ~ k == 0) by lra.
  pose proof (Qclamp_bounds v) as Hb.
  unfold zoom_about. cbn [Transform.k Transform.x Transform.y].
  rewrite clamp_scale_Fin, (div_Fin _ _ Hk0).
  exists (Qclamp v), (fx + - ((fx + - x) * (Qclamp v / k))),
         (fy + - ((fy + - y) * (Qclamp v / k))).
  split; [reflexivity|].
  split; [apply Qclamp_max_min|].
  split; [field; exact Hk0|].
  split; [field; exact Hk0|].
  split; field; split; lra.
Qed.

Ltac fin_arith :=
  cbn [add sub mul neg fst snd
       Transform.k Transform.x Transform.y transform
       pinchDistanceRef pinchStartScaleRef isDragging isDragRef lastMousePos].

Lemma handleZoom_zoomed (s : State) (k x y factor : Q) :
  transform s = Transform.mk (Fin k) (Fin x) (Fin y) ->
  0 < k ->
  zoomed k x y (MAP_WIDTH / 2) (MAP_HEIGHT / 2) (k * factor)
    (transform (handleZoom (Fin factor) s)).
Proof.
  intros Ht Hk. unfold handleZoom, setTransform. cbn [transform].
  rewrite Ht. fin_arith.
  rewrite !div_Fin by (intros H; discriminate H).
  now apply zoom_about_zoomed.
Qed.

Lemma handleWheel_zoomed (s : State) (k x y : Q) (rect : DOMRect.t)
  (e : WheelEvent.t) :
  transform s = Transform.mk (Fin k) (Fin x) (Fin y) ->
  0 < k ->
  ~ DOMRect.width rect == 0 ->
  ~ DOMRect.height rect == 0 ->
  zoomed k x y (plane_x rect (WheelEvent.clientX e))
    (plane_y rect (WheelEvent.clientY e)) (k * wheel_factor e)
    (transform (handleWheel (Some rect) e s)).
Proof.
  intros Ht Hk Hw Hh. unfold handleWheel, setTransform. cbn [transform].
  rewrite Ht. unfold gtb, ltb, wheel_factor.
  rewrite (div_Fin _ _ Hw), (div_Fin _ _ Hh).
  destruct (Qltb 0 (WheelEvent.deltaY e)); fin_arith;
    now apply zoom_about_zoomed.
Qed.

Lemma getTouchDistance_Fin (sqrtQ : Q -> Q) (a b : Touch.t) :
  getTouchDistance sqrtQ a b =
  Fin (sqrtQ ((Touch.clientX a - Touch.clientX b) * (Touch.clientX a - Touch.clientX b)
              + (Touch.clientY a - Touch.clientY b) * (Touch.clientY a - Touch.clientY b))).
Proof.
  unfold getTouchDistance. fin_arith. unfold Math_sqrt.
  now rewrite sum_squares_not_negative.
Qed.

Lemma truthy_Fin (d : Q) : ~ d == 0 -> truthy (Fin d) = true.
Proof.
  intros H. cbn. destruct (Qeq_bool d 0) eqn:E; [|reflexivity].
  apply Qeq_bool_iff in E. contradiction.
Qed.

Lemma pinch_zoomed (sqrtQ : Q -> Q) (s : State) (k x y d0 k0 : Q)
  (rect : DOMRect.t) (a b : Touch.t) :
  transform s = Transform.mk (Fin k) (Fin x) (Fin y) ->
  0 < k ->
  ~ DOMRect.width rect == 0 ->
  ~ DOMRect.height rect == 0 ->
  pinchDistanceRef s = Some (Fin d0) ->
  ~ d0 == 0 ->
  pinchStartScaleRef s = Fin k0 ->
  exists d : Q,
    getTouchDistance sqrtQ a b = Fin d /\
    zoomed k x y
      (plane_x rect ((Touch.clientX a + Touch.clientX b) / 2))
      (plane_y rect ((Touch.clientY a + Touch.clientY b) / 2))
      (k0 * (d / d0))
      (transform (handleTouchMove sqrtQ (Some rect) (TouchList.mk a [b]) s)).
Proof.
  intros Ht Hk Hw Hh Hd Hd0 Hk0.
  eexists. split; [apply getTouchDistance_Fin|].
  unfold handleTouchMove. cbn [TouchList.others TouchList.item0].
  rewrite Hd, (truthy_Fin _ Hd0).
  unfold pinch, setTransform, getTouchMidpoint. cbn [transform].
  rewrite Ht, Hk0, getTouchDistance_Fin.
  rewrite (div_Fin _ _ Hd0), (div_Fin _ _ Hw), (div_Fin _ _ Hh).
  fin_arith.
  rewrite !div_Fin by (intros H; discriminate H).
  fin_arith.
  now apply zoom_about_zoomed.
Qed.

(** C1.  Zoom is focal-point invariant.  From a transform [{k, x, y}] with
    [k > 0], each of the three zoom handlers gives the scale
    [k' = clamp(v, 1, 8)] and the translation
    [x' = F.x - (F.x - x) * (k'/k)], [y' = F.y - (F.y - y) * (k'/k)], and
    the plane coordinate mapped to the focal point [F] is unchanged:
    [(F.x - x')/k' = (F.x - x)/k] and [(F.y - y')/k' = (F.y - y)/k], over
    exact arithmetic.  The button zooms about the canvas centre with
    [v = k * factor]; the wheel about the plane position of the cursor with
    [v = k * 0.9] or [k * 1.1]; the pinch about the plane position of the
    touch midpoint with [v] the baseline scale times the ratio of the
    finger distances. *)
Theorem zoom_focal_point_invariant (sqrtQ : Q -> Q) (s : State) (k x y : Q) :
  transform s = Transform.mk (Fin k) (Fin x) (Fin y) ->
  0 < k ->
  (forall factor : Q,
     zoomed k x y (MAP_WIDTH / 2) (MAP_HEIGHT / 2) (k * factor)
       (transform (handleZoom (Fin factor) s))) /\
  (forall (rect : DOMRect.t) (e : WheelEvent.t),
     ~ DOMRect.width rect == 0 ->
     ~ DOMRect.height rect == 0 ->
     zoomed k x y (plane_x rect (WheelEvent.clientX e))
       (plane_y rect (WheelEvent.clientY e)) (k * wheel_factor e)
       (transform (handleWheel (Some rect) e s))) /\
  (forall (rect : DOMRect.t) (a b : Touch.t) (d0 k0 : Q),
     ~ DOMRect.width rect == 0 ->
     ~ DOMRect.height rect == 0 ->
     pinchDistanceRef s = Some (Fin d0) ->
     ~ d0 == 0 ->
     pinchStartScaleRef s = Fin k0 ->
     exists d : Q,
       getTouchDistance sqrtQ a b = Fin d /\
       zoomed k x y
         (plane_x rect ((Touch.clientX a + Touch.clientX b) / 2))
         (plane_y rect ((Touch.clientY a + Touch.clientY b) / 2))
         (k0 * (d / d0))
         (transform (handleTouchMove sqrtQ (Some rect) (TouchList.mk a [b]) s))).
Proof.
  intros Ht Hk. split; [|split].
  - intros factor. now apply handleZoom_zoomed.
  - intros rect e Hw Hh. now apply handleWheel_zoomed.
  - intros rect a b d0 k0 Hw Hh Hd Hd0 Hk0. now apply pinch_zoomed.
Qed.

(* ================================================================== *)
(** * The scale stays in [1, 8] *)

Lemma initial_invariant : scale_invariant initial.
Proof.
  split.
  - exists 1. split; [reflexivity | lra].
  - exists 1. reflexivity.
Qed.

Lemma zoom_about_in_range (fx fy : jsnum) (v : Q) (prev : Transform.t) :
  scale_in_range (zoom_about fx fy (clamp_scale (Fin v)) prev).
Proof.
  exists (Qclamp v). split.
  - unfold zoom_about. cbn [Transform.k]. apply clamp_scale_Fin.
  - apply Qclamp_bounds.
Qed.

Lemma handleZoom_invariant (factor : Q) (s : State) :
  scale_invariant s -> scale_invariant (handleZoom (Fin factor) s).
Proof.
  intros [(k & Hk & _) Hp]. split; [|exact Hp].
  unfold handleZoom, setTransform. cbn [transform].
  rewrite Hk. fin_arith. apply zoom_about_in_range.
Qed.

Lemma handleResetZoom_invariant (s : State) :
  scale_invariant s -> scale_invariant (handleResetZoom s).
Proof.
  intros [_ Hp]. split; [|exact Hp].
  exists 1. split; [reflexivity | lra].
Qed.

Lemma handleWheel_invariant (mapRef : option DOMRect.t) (e : WheelEvent.t) (s : State) :
  scale_invariant s -> scale_invariant (handleWheel mapRef e s).
Proof.
  intros Hs. destruct mapRef as [rect|]; [|exact Hs].
  destruct Hs as [(k & Hk & _) Hp]. split; [|exact Hp].
  unfold handleWheel, setTransform. cbn [transform]. rewrite Hk.
  destruct (_ >? _)%js; fin_arith; apply zoom_about_in_range.
Qed.

Lemma handleMouseDown_invariant (e : PointerEvent) (s : State) :
  scale_invariant s -> scale_invariant (handleMouseDown e s).
Proof. intros Hs. exact Hs. Qed.

Lemma handleMouseMove_invariant (mapRef : option DOMRect.t) (e : PointerEvent)
  (s : State) :
  scale_invariant s -> scale_invariant (handleMouseMove mapRef e s).
Proof.
  intros Hs. unfold handleMouseMove.
  destruct (negb (isDragging s)); [exact Hs|].
  destruct Hs as [Hk Hp].
  destruct (_ || _); (split; [exact Hk | exact Hp]).
Qed.

Lemma handleMouseUp_invariant (s : State) :
  scale_invariant s -> scale_invariant (handleMouseUp s).
Proof. intros Hs. exact Hs. Qed.

Section TouchInvariant.

Variable sqrtQ : Q -> Q.

Lemma handleTouchStart_invariant (touches : TouchList.t) (s : State) :
  scale_invariant s -> scale_invariant (handleTouchStart sqrtQ touches s).
Proof.
  intros Hs. unfold handleTouchStart.
  destruct (TouchList.others touches) as [|b [|c rest]]; try exact Hs.
  destruct Hs as [Hk _]. split; [exact Hk|].
  destruct Hk as (k & Hk & _). exists k. exact Hk.
Qed.

(** The ratio of the finger distances is finite whenever the baseline
    distance is truthy. *)
Lemma scaleFactor_finite (a b : Touch.t) (pinchDistance : jsnum) :
  truthy pinchDistance = true ->
  exists f : Q, (getTouchDistance sqrtQ a b / pinchDistance)%js = Fin f.
Proof.
  intros Ht. rewrite getTouchDistance_Fin.
  destruct pinchDistance as [d| | |]; cbn in Ht |- *.
  - destruct (Qeq_bool d 0); [discriminate Ht|]. eexists. reflexivity.
  - eexists. reflexivity.
  - eexists. reflexivity.
  - discriminate Ht.
Qed.

Lemma handleTouchMove_invariant (mapRef : option DOMRect.t) (touches : TouchList.t)
  (s : State) :
  scale_invariant s -> scale_invariant (handleTouchMove sqrtQ mapRef touches s).
Proof.
  intros Hs. unfold handleTouchMove.
  destruct (TouchList.others touches) as [|b [|c rest]];
    try (now apply handleMouseMove_invariant).
  destruct (pinchDistanceRef s) as [pinchDistance|];
    try (now apply handleMouseMove_invariant).
  destruct mapRef as [rect|]; try (now apply handleMouseMove_invariant).
  destruct (truthy pinchDistance) eqn:Ht;
    try (now apply handleMouseMove_invariant).
  destruct Hs as [_ [k0 Hk0]]. split; [|exists k0; exact Hk0].
  destruct (scaleFactor_finite (TouchList.item0 touches) b _ Ht) as [f Hf].
  unfold pinch, setTransform. cbn [transform].
  rewrite Hf, Hk0. fin_arith. apply zoom_about_in_range.
Qed.

Lemma handleTouchEnd_invariant (touches : list Touch.t) (s : State) :
  scale_invariant s -> scale_invariant (handleTouchEnd touches s).
Proof.
  intros Hs. unfold handleTouchEnd.
  destruct (_ <? _)%nat; [|exact Hs].
  destruct Hs as [Hk _]. split; [exact Hk|].
  destruct Hk as (k & Hk & _). exists k. exact Hk.
Qed.

Lemma step_invariant (mapRef : option DOMRect.t) (ev : Event) (s : State) :
  scale_invariant s -> scale_invariant (fst (step sqrtQ mapRef ev s)).
Proof.
  intros Hs. destruct ev; cbn [step fst].
  - now apply handleZoom_invariant.
  - now apply handleResetZoom_invariant.
  - now apply handleWheel_invariant.
  - now apply handleMouseDown_invariant.
  - now apply handleMouseMove_invariant.
  - now apply handleMouseUp_invariant.
  - now apply handleMouseUp_invariant.
  - now apply handleTouchStart_invariant.
  - now apply handleTouchMove_invariant.
  - now apply handleTouchEnd_invariant.
  - exact Hs.
Qed.

Lemma run_step (mapRef : option DOMRect.t) (ev : Event)
  (rest : list (option DOMRect.t * Event)) (s : State) :
  run sqrtQ ((mapRef, ev) :: rest) s =
  (fst (run sqrtQ rest (fst (step sqrtQ mapRef ev s))),
   snd (step sqrtQ mapRef ev s) ++ snd (run sqrtQ rest (fst (step sqrtQ mapRef ev s)))).
Proof.
  cbn [run]. destruct (step sqrtQ mapRef ev s) as [s1 out1].
  cbn [fst snd]. destruct (run sqrtQ rest s1) as [s2 out2]. reflexivity.
Qed.

Lemma run_invariant (inputs : list (option DOMRect.t * Event)) :
  forall s : State, scale_invariant s -> scale_invariant (fst (run sqrtQ inputs s)).
Proof.
  induction inputs as [|[mapRef ev] rest IH]; intros s Hs.
  - exact Hs.
  - rewrite run_step. cbn [fst]. apply IH. now apply step_invariant.
Qed.

(** C2.  The scale is bounded in [1, 8]: from the initial transform
    [{k: 1, x: 0, y: 0}], after any finite sequence of events (zoom
    buttons, wheel, touch and pinch moves, pans, reset, whatever the
    bounding rectangle of the map is at each of them), the scale is a
    finite number [k] with [1 <= k <= 8]. *)
Theorem scale_always_clamped (inputs : list (option DOMRect.t * Event)) :
  exists k : Q,
    Transform.k (transform (fst (run sqrtQ inputs initial))) = Fin k /\
    1 <= k <= 8.
Proof.
  destruct (run_invariant inputs initial initial_invariant) as [Hk _].
  exact Hk.
Qed.

End TouchInvariant.

(* ================================================================== *)
(** * Click or drag *)

Section ClickOrDrag.

Variable sqrtQ : Q -> Q.

Lemma run_app (l1 l2 : list (option DOMRect.t * Event)) :
  forall s : State,
    run sqrtQ (l1 ++ l2) s =
    (fst (run sqrtQ l2 (fst (run sqrtQ l1 s))),
     snd (run sqrtQ l1 s) ++ snd (run sqrtQ l2 (fst (run sqrtQ l1 s)))).
Proof.
  induction l1 as [|[mapRef ev] rest IH]; intros s.
  - cbn [app run fst snd]. now destruct (run sqrtQ l2 s).
  - rewrite <- app_comm_cons, !run_step, IH. cbn [fst snd].
    now rewrite app_assoc.
Qed.

Lemma handleMouseMove_dragging (mapRef : option DOMRect.t) (e : MouseEvent.t)
  (s : State) :
  isDragging s = true ->
  let s' := handleMouseMove mapRef (OfMouse e) s in
  isDragging s' = true /\
  lastMousePos s' = pos_of e /\
  isDragRef s' = isDragRef s || exceeds (lastMousePos s) e.
Proof.
  intros Hd. unfold handleMouseMove. rewrite Hd. cbn [negb].
  cbn [clientX_of clientY_of]. fin_arith.
  unfold gtb, ltb, Math_abs, exceeds, Qminus.
  destruct (Qltb 2 _ || Qltb 2 _);
    cbn [set_lastMousePos setTransform set_isDragRef
         isDragging lastMousePos isDragRef];
    repeat split; auto using orb_true_r, orb_false_r.
Qed.

Lemma moves_flag (moves : list (option DOMRect.t * MouseEvent.t)) :
  forall s : State,
    isDragging s = true ->
    let r := run sqrtQ (map (fun m => (fst m, MouseMove (snd m))) moves) s in
    isDragRef (fst r) = isDragRef s || some_move_exceeds (lastMousePos s) (map snd moves) /\
    snd r = [].
Proof.
  induction moves as [|[mapRef e] rest IH]; intros s Hd.
  - cbn. split; [now rewrite orb_false_r | reflexivity].
  - cbn [map fst snd]. rewrite run_step. cbn [step fst snd app].
    destruct (handleMouseMove_dragging mapRef e s Hd) as (Hd' & Hl & Hf).
    destruct (IH _ Hd') as [IH1 IH2].
    rewrite IH1, IH2, Hl, Hf. cbn [some_move_exceeds].
    split; [now rewrite orb_assoc | reflexivity].
Qed.

Lemma session_result (down : MouseEvent.t)
  (moves : list (option DOMRect.t * MouseEvent.t)) (mapRef : option DOMRect.t)
  (feature : GeoJSONFeature) (s : State) :
  let r := run sqrtQ (session down moves mapRef feature) s in
  isDragRef (fst r) = some_move_exceeds (pos_of down) (map snd moves) /\
  snd r = if some_move_exceeds (pos_of down) (map snd moves) then [] else [feature].
Proof.
  unfold session. rewrite run_step. cbn [step fst snd app].
  rewrite run_app.
  destruct (moves_flag moves (handleMouseDown (OfMouse down) s) eq_refl)
    as [Hf Ho].
  cbn [fst snd]. rewrite Ho.
  cbn [run step fst snd app handleCountryClick handleMouseUp setIsDragging isDragRef].
  unfold handleCountryClick, handleMouseUp, setIsDragging.
  cbn [isDragRef]. rewrite Hf.
  change (isDragRef (handleMouseDown (OfMouse down) s)) with false.
  change (lastMousePos (handleMouseDown (OfMouse down) s)) with (pos_of down).
  cbn [orb].
  split; [reflexivity|].
  now destruct (some_move_exceeds _ _).
Qed.

End ClickOrDrag.

Lemma Qabs_of (d v : Q) : 0 <= v -> d == v -> Qabs d == v.
Proof.
  intros Hv Hd. rewrite Hd. now apply Qabs_pos.
Qed.

Lemma exceeds_right_of (down : MouseEvent.t) (a b : Q) :
  exceeds (pos_of (right_of down a)) (right_of down b) = Qltb 2 (Qabs (b - a)).
Proof.
  unfold exceeds, right_of, pos_of. cbn [MouseEvent.clientX MouseEvent.clientY Pos.x Pos.y].
  assert (Hy : Qltb 2 (Qabs (MouseEvent.clientY down - MouseEvent.clientY down)) = false).
  { apply Qltb_ge. rewrite (Qabs_of _ 0); [lra | lra | ring]. }
  rewrite Hy, orb_false_r.
  assert (He : Qabs (MouseEvent.clientX down + b - (MouseEvent.clientX down + a))
               == Qabs (b - a)).
  { apply Qabs_wd. ring. }
  destruct (Qltb_cases 2 (Qabs (b - a))) as [[-> H] | [-> H]].
  - apply Qltb_lt. now rewrite He.
  - apply Qltb_ge. now rewrite He.
Qed.

Lemma exceeds_first_right_of (down : MouseEvent.t) (b : Q) :
  exceeds (pos_of down) (right_of down b) = Qltb 2 (Qabs b).
Proof.
  unfold exceeds, right_of, pos_of. cbn [MouseEvent.clientX MouseEvent.clientY Pos.x Pos.y].
  assert (Hy : Qltb 2 (Qabs (MouseEvent.clientY down - MouseEvent.clientY down)) = false).
  { apply Qltb_ge. rewrite (Qabs_of _ 0); [lra | lra | ring]. }
  rewrite Hy, orb_false_r.
  assert (He : Qabs (MouseEvent.clientX down + b - MouseEvent.clientX down) == Qabs b).
  { apply Qabs_wd. ring. }
  destruct (Qltb_cases 2 (Qabs b)) as [[-> H] | [-> H]].
  - apply Qltb_lt. now rewrite He.
  - apply Qltb_ge. now rewrite He.
Qed.

(** C3 (a defect of the code).  Three successive 1-pixel moves to the
    right: the pointer ends 3 pixels from the down-position, which is more
    than the threshold of 2 pixels, and the map is panned, yet the flag
    stays unset and the click on the country fires. *)
Lemma three_small_moves_still_click :
  let down := MouseEvent.mk 100 100 in
  let moves := [MouseEvent.mk 101 100; MouseEvent.mk 102 100; MouseEvent.mk 103 100] in
  let r := run isqrtQ
             (session down (map (pair (Some rect_1000_500)) moves)
                      (Some rect_1000_500) island)
             initial in
  exceeds_from_down down moves = true /\
  isDragRef (fst r) = false /\
  snd r = [island].
Proof. vm_compute. repeat split. Qed.

(** How the code measures the threshold: each move on its own, from the
    previous pointer position (the down-position for the first move).
    The flag of a pointer session is set exactly when some single move
    exceeds 2 pixels in either axis, so that a drag in steps of at most 2
    pixels still ends in a click. *)
Theorem drag_threshold_is_per_move (sqrtQ : Q -> Q) (down : MouseEvent.t)
  (mapRef : option DOMRect.t) (feature : GeoJSONFeature) (s : State) :
  (forall moves : list (option DOMRect.t * MouseEvent.t),
     let r := run sqrtQ (session down moves mapRef feature) s in
     isDragRef (fst r) = some_move_exceeds (pos_of down) (map snd moves) /\
     snd r = if some_move_exceeds (pos_of down) (map snd moves)
             then [] else [feature]) /\
  snd (run sqrtQ
         (session down
            [(mapRef, right_of down 1); (mapRef, right_of down 2);
             (mapRef, right_of down 3)] mapRef feature) s) = [feature] /\
  snd (run sqrtQ (session down [(mapRef, right_of down 3)] mapRef feature) s) = [] /\
  snd (run sqrtQ (session down [(mapRef, right_of down 1)] mapRef feature) s)
    = [feature].
Proof.
  split; [intros moves; apply session_result|].
  repeat split.
  - rewrite (proj2 (session_result sqrtQ down _ mapRef feature s)).
    cbn [map snd some_move_exceeds].
    now rewrite exceeds_first_right_of, !exceeds_right_of.
  - rewrite (proj2 (session_result sqrtQ down _ mapRef feature s)).
    cbn [map snd some_move_exceeds].
    now rewrite exceeds_first_right_of.
  - rewrite (proj2 (session_result sqrtQ down _ mapRef feature s)).
    cbn [map snd some_move_exceeds].
    now rewrite exceeds_first_right_of.
Qed.

(* ================================================================== *)
(** * The drag flag outlives the release *)

Section DragFlag.

Variable sqrtQ : Q -> Q.

Lemma handleMouseMove_keeps_flag (mapRef : option DOMRect.t) (e : PointerEvent)
  (s : State) :
  isDragRef s = true -> isDragRef (handleMouseMove mapRef e s) = true.
Proof.
  intros Hf. unfold handleMouseMove.
  destruct (negb (isDragging s)); [exact Hf|].
  destruct (_ || _); cbn; [reflexivity | exact Hf].
Qed.

Lemma step_keeps_flag (mapRef : option DOMRect.t) (ev : Event) (s : State) :
  is_pointer_down ev = false ->
  isDragRef s = true ->
  isDragRef (fst (step sqrtQ mapRef ev s)) = true /\
  snd (step sqrtQ mapRef ev s) = [].
Proof.
  intros Hev Hf. destruct ev; try discriminate Hev; cbn [step fst snd];
    (split; [|try reflexivity]); try exact Hf.
  - unfold handleWheel. destruct mapRef; exact Hf.
  - now apply handleMouseMove_keeps_flag.
  - unfold handleTouchMove.
    destruct (TouchList.others touches) as [|b [|c rest]];
      try (now apply handleMouseMove_keeps_flag).
    destruct (pinchDistanceRef s) as [pinchDistance|];
      try (now apply handleMouseMove_keeps_flag).
    destruct mapRef as [rect|]; try (now apply handleMouseMove_keeps_flag).
    destruct (truthy pinchDistance);
      [exact Hf | now apply handleMouseMove_keeps_flag].
  - unfold handleTouchEnd. destruct (_ <? _)%nat; exact Hf.
  - unfold handleCountryClick. now rewrite Hf.
Qed.

Lemma run_keeps_flag (inputs : list (option DOMRect.t * Event)) :
  forall s : State,
    forallb (fun i => negb (is_pointer_down (snd i))) inputs = true ->
    isDragRef s = true ->
    isDragRef (fst (run sqrtQ inputs s)) = true /\ snd (run sqrtQ inputs s) = [].
Proof.
  induction inputs as [|[mapRef ev] rest IH]; intros s Hall Hf.
  - split; [exact Hf | reflexivity].
  - cbn [forallb snd] in Hall. apply andb_true_iff in Hall as [Hev Hall].
    apply negb_true_iff in Hev.
    destruct (step_keeps_flag mapRef ev s Hev Hf) as [Hf1 Ho1].
    rewrite run_step. cbn [fst snd]. rewrite Ho1.
    exact (IH _ Hall Hf1).
Qed.

(** C6.  A feature click fires if and only if the drag flag is unset,
    also when it is dispatched right after the pointer-up; the pointer-up
    handlers leave the flag as it is; a set flag is cleared by no event
    but a pointer-down (mouse down or touch start); so after a drag, as
    long as no pointer-down comes, every click is suppressed; and every
    pointer-down clears the flag, so that a press and release without a
    move fires the click again. *)
Theorem click_fires_iff_no_drag :
  (forall (feature : GeoJSONFeature) (s : State),
     handleCountryClick feature s = Some feature <-> isDragRef s = false) /\
  (forall (mapRef : option DOMRect.t) (feature : GeoJSONFeature) (s : State),
     snd (run sqrtQ [(mapRef, MouseUp); (mapRef, CountryClick feature)] s)
     = if isDragRef s then [] else [feature]) /\
  (forall (touches : list Touch.t) (s : State),
     isDragRef (handleMouseUp s) = isDragRef s /\
     isDragRef (handleTouchEnd touches s) = isDragRef s) /\
  (forall (mapRef : option DOMRect.t) (ev : Event) (s : State),
     isDragRef s = true ->
     isDragRef (fst (step sqrtQ mapRef ev s)) = false ->
     is_pointer_down ev = true) /\
  (forall (inputs : list (option DOMRect.t * Event)) (s : State),
     forallb (fun i => negb (is_pointer_down (snd i))) inputs = true ->
     isDragRef s = true ->
     isDragRef (fst (run sqrtQ inputs s)) = true /\
     snd (run sqrtQ inputs s) = []) /\
  (forall (mapRef : option DOMRect.t) (ev : Event) (s : State),
     is_pointer_down ev = true ->
     isDragRef (fst (step sqrtQ mapRef ev s)) = false) /\
  (forall (mapRef : option DOMRect.t) (e : MouseEvent.t)
          (feature : GeoJSONFeature) (s : State),
     snd (run sqrtQ [(mapRef, MouseDown e); (mapRef, MouseUp);
                     (mapRef, CountryClick feature)] s) = [feature]).
Proof.
  split; [|split; [|split; [|split; [|split; [|split]]]]].
  - intros feature s. unfold handleCountryClick.
    destruct (isDragRef s); split; intros H; try reflexivity; discriminate H.
  - intros mapRef feature s. cbn. unfold handleCountryClick. cbn.
    now destruct (isDragRef s).
  - intros touches s. split; [reflexivity|].
    unfold handleTouchEnd. now destruct (_ <? _)%nat.
  - intros mapRef ev s Hf Hc.
    destruct (is_pointer_down ev) eqn:Hev; [reflexivity|].
    destruct (step_keeps_flag mapRef ev s Hev Hf) as [H _]. congruence.
  - intros inputs s. apply run_keeps_flag.
  - intros mapRef ev s Hev. destruct ev; try discriminate Hev; cbn [step fst].
    + reflexivity.
    + unfold handleTouchStart.
      now destruct (TouchList.others touches) as [|b [|c rest]].
  - reflexivity.
Qed.

End DragFlag.

(** After a drag of 5 pixels the release, a wheel turn and two clicks on
    the country toggle nothing; the next press clears the flag. *)
Lemma click_fires_iff_no_drag_witness :
  let dragged :=
    fst (run isqrtQ
           [(Some rect_1000_500, MouseDown (MouseEvent.mk 100 100));
            (Some rect_1000_500, MouseMove (MouseEvent.mk 105 100))]
           initial) in
  let inputs :=
    [(Some rect_1000_500, MouseUp);
     (Some rect_1000_500, CountryClick island);
     (Some rect_1000_500, Wheel (WheelEvent.mk 100 100 1));
     (Some rect_1000_500, CountryClick island)] in
  isDragRef dragged = true /\
  (isDragRef (fst (run isqrtQ inputs dragged)) = true /\
   snd (run isqrtQ inputs dragged) = []) /\
  isDragRef (fst (step isqrtQ (Some rect_1000_500)
                    (MouseDown (MouseEvent.mk 100 100))
                    (fst (run isqrtQ inputs dragged)))) = false.
Proof.
  intros dragged inputs.
  destruct (click_fires_iff_no_drag isqrtQ) as (_ & _ & _ & _ & Hkeep & Hclear & _).
  split; [reflexivity|]. split.
  - apply Hkeep; reflexivity.
  - apply Hclear. reflexivity.
Defined.

(* ================================================================== *)
(** * The pixel-to-plane ratio *)

(** With a map element of width zero a pan, a wheel turn and a pinch
    each leave a translation that is not finite: the ratio
    [MAP_WIDTH / rect.width] is [Infinity]. *)
Lemma zero_width_not_guarded :
  let panned :=
    fst (run isqrtQ
           [(Some rect_zero_width, MouseDown (MouseEvent.mk 100 100));
            (Some rect_zero_width, MouseMove (MouseEvent.mk 101 100))]
           initial) in
  let wheeled :=
    fst (run isqrtQ [(Some rect_zero_width, Wheel (WheelEvent.mk 100 100 (-1)))] initial) in
  let pinched :=
    fst (run isqrtQ
           [(Some rect_zero_width,
             TouchStart (TouchList.mk (Touch.mk 100 100) [Touch.mk 103 104]));
            (Some rect_zero_width,
             TouchMove (TouchList.mk (Touch.mk 100 100) [Touch.mk 106 108]))]
           initial) in
  Transform.x (transform panned) = PInf /\
  Transform.y (transform panned) = NaN /\
  finite_transform (transform panned) = false /\
  finite_transform (transform wheeled) = false /\
  finite_transform (transform pinched) = false.
Proof. vm_compute. repeat split. Qed.

Lemma zoom_about_finite (k x y fx fy v : Q) :
  ~ k == 0 ->
  finite_transform
    (zoom_about (Fin fx) (Fin fy) (clamp_scale (Fin v))
       (Transform.mk (Fin k) (Fin x) (Fin y))) = true.
Proof.
  intros Hk. unfold zoom_about. cbn [Transform.k Transform.x Transform.y].
  rewrite clamp_scale_Fin, (div_Fin _ _ Hk). reflexivity.
Qed.

Lemma handleMouseMove_transform (mapRef : option DOMRect.t) (e : PointerEvent)
  (s : State) :
  isDragging s = true ->
  transform (handleMouseMove mapRef e s) =
  let scaleRatio :=
    match mapRef with
    | None => Fin 1
    | Some rect => (Fin MAP_WIDTH / Fin (DOMRect.width rect))%js
    end in
  Transform.mk
    (Transform.k (transform s))
    (Transform.x (transform s)
     + Fin (clientX_of e - Pos.x (lastMousePos s)) * scaleRatio)%js
    (Transform.y (transform s)
     + Fin (clientY_of e - Pos.y (lastMousePos s)) * scaleRatio)%js.
Proof.
  intros Hd. unfold handleMouseMove. rewrite Hd. cbn [negb].
  destruct (_ || _); reflexivity.
Qed.

Section Ratio.

Variable sqrtQ : Q -> Q.

Lemma handleTouchMove_finite (rect : DOMRect.t) (touches : TouchList.t)
  (s : State) (k x y k0 : Q) :
  transform s = Transform.mk (Fin k) (Fin x) (Fin y) ->
  pinchStartScaleRef s = Fin k0 ->
  ~ k == 0 ->
  ~ DOMRect.width rect == 0 ->
  ~ DOMRect.height rect == 0 ->
  finite_transform (transform (handleTouchMove sqrtQ (Some rect) touches s)) = true.
Proof.
  intros Ht Hk0 Hk Hw Hh.
  assert (Hmove : forall e,
    finite_transform (transform (handleMouseMove (Some rect) e s)) = true).
  { intros e. unfold handleMouseMove.
    destruct (negb (isDragging s)); [now rewrite Ht|].
    destruct (_ || _); cbn [transform setTransform set_lastMousePos set_isDragRef];
      rewrite Ht, (div_Fin _ _ Hw); reflexivity. }
  unfold handleTouchMove.
  destruct (TouchList.others touches) as [|b [|c rest]]; try apply Hmove.
  destruct (pinchDistanceRef s) as [pinchDistance|]; try apply Hmove.
  destruct (truthy pinchDistance) eqn:Hp; try apply Hmove.
  destruct (scaleFactor_finite sqrtQ (TouchList.item0 touches) b _ Hp) as [f Hf].
  unfold pinch, setTransform, getTouchMidpoint. cbn [transform].
  rewrite Hf, Hk0, Ht, (div_Fin _ _ Hw), (div_Fin _ _ Hh).
  fin_arith. rewrite !div_Fin by (intros H; discriminate H). fin_arith.
  now apply zoom_about_finite.
Qed.

(** C5, as the code has it.  The ratio 1 is the fallback of the
    mouse-move handler for a missing map element ([mapRef.current] is
    null), not for a width of zero; without the element a wheel event
    changes nothing and a two-finger move is handled as a plain move.
    With the element the three handlers divide by its width and height
    unguarded: when these are not zero, they take a finite transform of
    non-zero scale to a finite transform; when the width is zero, every
    pan leaves a translation that is not finite. *)
Theorem ratio_fallback_is_for_missing_element (s : State) (k x y k0 : Q) :
  transform s = Transform.mk (Fin k) (Fin x) (Fin y) ->
  pinchStartScaleRef s = Fin k0 ->
  ~ k == 0 ->
  (forall e : PointerEvent,
     isDragging s = true ->
     transform (handleMouseMove None e s) =
     Transform.mk (Fin k)
       (Fin (x + (clientX_of e - Pos.x (lastMousePos s)) * 1))
       (Fin (y + (clientY_of e - Pos.y (lastMousePos s)) * 1))) /\
  (forall e : WheelEvent.t, handleWheel None e s = s) /\
  (forall touches : TouchList.t,
     handleTouchMove sqrtQ None touches s = handleMouseMove None (OfTouch touches) s) /\
  (forall (rect : DOMRect.t) (e : PointerEvent) (w : WheelEvent.t)
          (touches : TouchList.t),
     ~ DOMRect.width rect == 0 ->
     ~ DOMRect.height rect == 0 ->
     finite_transform (transform (handleMouseMove (Some rect) e s)) = true /\
     finite_transform (transform (handleWheel (Some rect) w s)) = true /\
     finite_transform (transform (handleTouchMove sqrtQ (Some rect) touches s)) = true) /\
  (forall (rect : DOMRect.t) (e : PointerEvent),
     DOMRect.width rect == 0 ->
     isDragging s = true ->
     is_finite (Transform.x (transform (handleMouseMove (Some rect) e s))) = false).
Proof.
  intros Ht Hk0 Hk. split; [|split; [|split; [|split]]].
  - intros e Hd. rewrite (handleMouseMove_transform None e s Hd), Ht. reflexivity.
  - reflexivity.
  - intros touches. unfold handleTouchMove.
    destruct (TouchList.others touches) as [|b [|c rest]]; try reflexivity.
    now destruct (pinchDistanceRef s).
  - intros rect e w touches Hw Hh. split; [|split].
    + unfold handleMouseMove.
      destruct (negb (isDragging s)); [now rewrite Ht|].
      destruct (_ || _); cbn [transform setTransform set_lastMousePos set_isDragRef];
        rewrite Ht, (div_Fin _ _ Hw); reflexivity.
    + unfold handleWheel, setTransform. cbn [transform]. rewrite Ht.
      rewrite (div_Fin _ _ Hw), (div_Fin _ _ Hh).
      destruct (_ >? _)%js; fin_arith; now apply zoom_about_finite.
    + now apply (handleTouchMove_finite rect touches s k x y k0).
  - intros rect e Hw Hd.
    rewrite (handleMouseMove_transform (Some rect) e s Hd), Ht.
    cbn [Transform.x div]. apply Qeq_bool_iff in Hw. rewrite Hw.
    change (signed_inf (MAP_WIDTH ?= 0)) with PInf. cbn [mul].
    now destruct (clientX_of e - Pos.x (lastMousePos s) ?= 0).
Qed.

End Ratio.

Lemma ratio_fallback_is_for_missing_element_witness :
  let s := handleMouseDown (OfMouse (MouseEvent.mk 100 100)) initial in
  transform (handleMouseMove None (OfMouse (MouseEvent.mk 103 100)) s)
  = Transform.mk (Fin 1) (Fin (0 + (103 - 100) * 1)) (Fin (0 + (100 - 100) * 1)) /\
  finite_transform
    (transform (handleMouseMove (Some rect_1000_500) (OfMouse (MouseEvent.mk 103 100)) s))
  = true.
Proof.
  intros s.
  pose proof (ratio_fallback_is_for_missing_element isqrtQ s 1 0 0 1
                eq_refl eq_refl ltac:(intros H; discriminate H))
    as (Hnone & _ & _ & Hsome & _).
  split.
  - exact (Hnone (OfMouse (MouseEvent.mk 103 100)) eq_refl).
  - apply (Hsome rect_1000_500 (OfMouse (MouseEvent.mk 103 100))
                 (WheelEvent.mk 0 0 0)
                 (TouchList.mk (Touch.mk 0 0) []));
      intros H; discriminate H.
Defined.

(* ================================================================== *)
(** * The path builder *)

Lemma append_nil_r (s : string) : (s ++ "")%string = s.
Proof. induction s as [|c s IH]; cbn; [reflexivity | now rewrite IH]. Qed.

Lemma append_assoc (s1 s2 s3 : string) :
  ((s1 ++ s2) ++ s3)%string = (s1 ++ (s2 ++ s3))%string.
Proof. induction s1 as [|c s1 IH]; cbn; [reflexivity | now rewrite IH]. Qed.

Section PathBuilderFacts.

Variable toString : jsnum -> string.

Lemma render_app (cs1 cs2 : list PathCmd) :
  render toString (cs1 ++ cs2) = (render toString cs1 ++ render toString cs2)%string.
Proof.
  induction cs1 as [|c cs1 IH]; cbn [app render]; [reflexivity|].
  now rewrite IH, append_assoc.
Qed.

Lemma drawPoint_render (d : string) (point : Point) (i : nat) :
  drawPoint toString d point i = (d ++ render toString (point_cmd point i))%string.
Proof.
  unfold drawPoint, point_cmd.
  destruct point as [|[|lon [|lat rest]]]; cbn; try now rewrite append_nil_r.
  destruct (Nat.eqb i 0); cbn; now rewrite append_nil_r.
Qed.

Lemma forEach_point_render (coords : list Point) :
  forall (i : nat) (d : string),
    forEach_point toString coords i d
    = (d ++ render toString (point_cmds coords i))%string.
Proof.
  induction coords as [|point rest IH]; intros i d; cbn [forEach_point point_cmds].
  - cbn. now rewrite append_nil_r.
  - now rewrite IH, drawPoint_render, render_app, append_assoc.
Qed.

Lemma drawPolygon_render (ring : Ring) :
  drawPolygon toString ring = render toString (ring_cmds ring).
Proof.
  unfold drawPolygon, ring_cmds.
  rewrite forEach_point_render, render_app. reflexivity.
Qed.

Lemma forEach_ring_render (rings : list Ring) :
  forall path : string,
    forEach_ring toString rings path
    = (path ++ render toString (flat_map ring_cmds rings))%string.
Proof.
  unfold forEach_ring.
  induction rings as [|ring rest IH]; intros path; cbn [fold_left flat_map].
  - cbn. now rewrite append_nil_r.
  - now rewrite IH, drawPolygon_render, render_app, append_assoc.
Qed.

Lemma forEach_polygon_render (polys : list (list Ring)) :
  forall path : string,
    fold_left (fun path polygon => forEach_ring toString polygon path) polys path
    = (path ++ render toString (flat_map (flat_map ring_cmds) polys))%string.
Proof.
  induction polys as [|polygon rest IH]; intros path; cbn [fold_left flat_map].
  - cbn. now rewrite append_nil_r.
  - now rewrite IH, forEach_ring_render, render_app, append_assoc.
Qed.

(** The text built by [createPath] is the text of its commands. *)
Lemma createPath_render (feature : GeoJSONFeature) :
  createPath toString feature = render toString (path_cmds feature).
Proof.
  unfold createPath, path_cmds.
  destruct (geometry feature) as [[[rings|]|[polys|]|type [|]]|]; try reflexivity.
  - now rewrite forEach_ring_render.
  - now rewrite forEach_polygon_render.
Qed.




Lemma drawPolygon_not_empty (ring : Ring) : drawPolygon toString ring <> ""%string.
Proof.
  unfold drawPolygon.
  destruct (forEach_point toString ring 0 ""); discriminate.
Qed.


Lemma createPath_polygon_cons (props : CountryProperties) (ring : Ring)
  (after : list Ring) :
  createPath toString (polygon_feature props (ring :: after))
  = (drawPolygon toString ring
     ++ createPath toString (polygon_feature props after))%string.
Proof.
  rewrite !createPath_render, drawPolygon_render.
  cbn [path_cmds polygon_feature geometry flat_map].
  now rewrite render_app.
Qed.

End PathBuilderFacts.

Section PathBuilderClaims.

Variable toString : jsnum -> string.

Lemma valid_point_inv (point : Point) :
  valid_point point = true ->
  exists lon lat rest, point = PArr (lon :: lat :: rest).
Proof.
  destruct point as [|[|lon [|lat rest]]]; try discriminate.
  intros _. now exists lon, lat, rest.
Qed.

Lemma invalid_point_cmd (point : Point) (i : nat) :
  valid_point point = false -> point_cmd point i = [].
Proof. now destruct point as [|[|lon [|lat rest]]]. Qed.

Lemma point_cmds_no_valid (coords : list Point) :
  forall i : nat, existsb valid_point coords = false -> point_cmds coords i = [].
Proof.
  induction coords as [|point rest IH]; intros i H; [reflexivity|].
  cbn [existsb] in H. apply orb_false_iff in H as [Hp Hr].
  cbn [point_cmds]. now rewrite (invalid_point_cmd _ _ Hp), (IH _ Hr).
Qed.

(** Past index 0 every command of the points is a line. *)
Lemma point_cmds_later (coords : list Point) :
  forall i : nat,
    count is_move (point_cmds coords (S i)) = 0%nat /\
    (existsb valid_point coords = true ->
     exists x y cs, point_cmds coords (S i) = LineTo x y :: cs).
Proof.
  unfold count.
  induction coords as [|point rest IH]; intros i.
  - split; [reflexivity | discriminate].
  - destruct (IH (S i)) as [IHm IHl]. cbn [point_cmds existsb].
    destruct (valid_point point) eqn:Hp.
    + destruct (valid_point_inv _ Hp) as (lon & lat & tl & ->).
      cbn [point_cmd]. destruct (project (Fin lon) (Fin lat)) as [x y].
      cbn [Nat.eqb app filter is_move]. split; [exact IHm|].
      intros _. now exists x, y, (point_cmds rest (S (S i))).
    + rewrite (invalid_point_cmd _ _ Hp). cbn [app orb]. split; [exact IHm | exact IHl].
Qed.



(** C9.  A feature without geometry, with a geometry without
    coordinates, or with a geometry of a type that is neither Polygon nor
    MultiPolygon gives the empty path, and no drawing command. *)
Theorem no_geometry_empty_path (props : CountryProperties) :
  createPath toString (mkFeature props None) = ""%string /\
  createPath toString (mkFeature props (Some (Polygon None))) = ""%string /\
  createPath toString (mkFeature props (Some (MultiPolygon None))) = ""%string /\
  (forall (type : string) (has_coordinates : bool),
     let feature := mkFeature props (Some (OtherGeometry type has_coordinates)) in
     createPath toString feature = ""%string /\ path_cmds feature = []).
Proof.
  repeat split. now destruct has_coordinates.
Qed.

(** C10.  A ring whose element at index 0 is invalid and which has a
    valid point later gives a subpath that begins with a line command
    ([L]) and has no move command; a ring without any valid point still
    gives the text of the close command, [Z] followed by a space. *)
Theorem invalid_first_point_starts_with_line :
  (forall (point : Point) (rest : list Point),
     valid_point point = false ->
     existsb valid_point rest = true ->
     (exists (x y : jsnum) (cs : list PathCmd),
        ring_cmds (point :: rest) = LineTo x y :: cs) /\
     count is_move (ring_cmds (point :: rest)) = 0%nat /\
     (exists tail : string,
        drawPolygon toString (point :: rest) = String "L" tail)) /\
  (forall ring : Ring,
     existsb valid_point ring = false ->
     drawPolygon toString ring = "Z "%string /\
     forall props : CountryProperties,
       createPath toString (polygon_feature props [ring]) = "Z "%string).
Proof.
  split.
  - intros point rest Hp Hr.
    destruct (point_cmds_later rest 0) as [Hm Hl].
    destruct (Hl Hr) as (x & y & cs & Hcs).
    assert (Hring : ring_cmds (point :: rest) = LineTo x y :: cs ++ [ClosePath]).
    { unfold ring_cmds. cbn [point_cmds].
      now rewrite (invalid_point_cmd _ _ Hp), Hcs. }
    split; [now exists x, y, (cs ++ [ClosePath])|]. split.
    + unfold ring_cmds. cbn [point_cmds].
      rewrite (invalid_point_cmd _ _ Hp). cbn [app].
      unfold count in *. rewrite filter_app, length_app, Hm. reflexivity.
    + rewrite drawPolygon_render, Hring. cbn [render render_cmd].
      eexists. reflexivity.
  - intros ring Hr.
    assert (Hd : drawPolygon toString ring = "Z "%string).
    { rewrite drawPolygon_render. unfold ring_cmds.
      now rewrite (point_cmds_no_valid _ _ Hr). }
    split; [exact Hd|]. intros props.
    rewrite createPath_polygon_cons, Hd. reflexivity.
Qed.

End PathBuilderClaims.




Lemma invalid_first_point_starts_with_line_witness :
  (exists tail : string,
     drawPolygon show_number [PNull; PArr [36; 0]; PArr [0; 18]] = String "L" tail) /\
  drawPolygon show_number [PNull; PArr [7]] = "Z "%string.
Proof.
  split.
  - exact (proj2 (proj2
      (proj1 (invalid_first_point_starts_with_line show_number)
         PNull [PArr [36; 0]; PArr [0; 18]] eq_refl eq_refl))).
  - exact (proj1
      (proj2 (invalid_first_point_starts_with_line show_number)
         [PNull; PArr [7]] eq_refl)).
Defined.

(* ================================================================== *)
(** * The label anchor *)

Lemma project_Fin (lon lat : Q) :
  project (Fin lon) (Fin lat)
  = (Fin (fst (planeQ lon lat)), Fin (snd (planeQ lon lat))).
Proof. reflexivity. Qed.

Lemma extend_box_of (a b c d x y : Q) :
  extend (box_of a b c d) (Fin x, Fin y)
  = box_of (if Qltb x a then x else a) (if Qltb b x then x else b)
           (if Qltb y c then y else c) (if Qltb d y then y else d).
Proof.
  unfold extend, box_of, gtb, ltb. cbn [minX maxX minY maxY].
  destruct (Qltb x a), (Qltb b x), (Qltb y c), (Qltb d y); reflexivity.
Qed.

Lemma least_step (m a x : Q) (l : list Q) :
  least m ((if Qltb x a then x else a) :: l) -> least m (a :: x :: l).
Proof.
  intros [Hin Hle].
  destruct (Qltb_cases x a) as [[E H] | [E H]]; rewrite E in Hin, Hle.
  - split.
    + now right.
    + intros v [<- | Hv]; [|now apply Hle].
      apply Qle_trans with x; [apply Hle; now left | lra].
  - split.
    + destruct Hin as [<- | Hin]; [now left | now right; right].
    + intros v [<- | [<- | Hv]].
      * apply Hle. now left.
      * apply Qle_trans with a; [apply Hle; now left | exact H].
      * apply Hle. now right.
Qed.

Lemma greatest_step (m b x : Q) (l : list Q) :
  greatest m ((if Qltb b x then x else b) :: l) -> greatest m (b :: x :: l).
Proof.
  intros [Hin Hle].
  destruct (Qltb_cases b x) as [[E H] | [E H]]; rewrite E in Hin, Hle.
  - split.
    + now right.
    + intros v [<- | Hv]; [|now apply Hle].
      apply Qle_trans with x; [lra | apply Hle; now left].
  - split.
    + destruct Hin as [<- | Hin]; [now left | now right; right].
    + intros v [<- | [<- | Hv]].
      * apply Hle. now left.
      * apply Qle_trans with b; [exact H | apply Hle; now left].
      * apply Hle. now right.
Qed.

Lemma forEach_bbox_finite (ring : Ring) :
  all_valid ring ->
  forall a b c d : Q,
  exists a' b' c' d' : Q,
    forEach_bbox ring (box_of a b c d) = Returns (box_of a' b' c' d') /\
    least a' (a :: map fst (plane_points ring)) /\
    greatest b' (b :: map fst (plane_points ring)) /\
    least c' (c :: map snd (plane_points ring)) /\
    greatest d' (d :: map snd (plane_points ring)).
Proof.
  induction 1 as [|point rest Hp Hrest IH]; intros a b c d.
  - exists a, b, c, d. split; [reflexivity|].
    repeat split; try (now left); intros v [<- | []]; apply Qle_refl.
  - destruct (valid_point_inv _ Hp) as (lon & lat & tl & ->).
    cbn [forEach_bbox coord nth_error].
    rewrite project_Fin, extend_box_of.
    destruct (IH (if Qltb (fst (planeQ lon lat)) a then fst (planeQ lon lat) else a)
                 (if Qltb b (fst (planeQ lon lat)) then fst (planeQ lon lat) else b)
                 (if Qltb (snd (planeQ lon lat)) c then snd (planeQ lon lat) else c)
                 (if Qltb d (snd (planeQ lon lat)) then snd (planeQ lon lat) else d))
      as (a' & b' & c' & d' & Hrun & Ha & Hb & Hc & Hd).
    exists a', b', c', d'. split; [exact Hrun|].
    cbn [plane_points flat_map app map].
    split; [now apply least_step|]. split; [now apply greatest_step|].
    split; [now apply least_step | now apply greatest_step].
Qed.

(** The anchor of a non-empty ring of valid points is the midpoint of
    the bounding box of its plane points. *)
Lemma anchor_of_midpoint (ring : Ring) :
  ring <> [] ->
  all_valid ring ->
  exists a b c d : Q,
    least a (map fst (plane_points ring)) /\
    greatest b (map fst (plane_points ring)) /\
    least c (map snd (plane_points ring)) /\
    greatest d (map snd (plane_points ring)) /\
    anchor_of ring = Returns (Some (Fin ((a + b) / 2), Fin ((c + d) / 2))).
Proof.
  intros Hne Hv. destruct ring as [|point rest]; [contradiction|].
  inversion Hv as [|? ? Hp Hrest]; subst.
  destruct (valid_point_inv _ Hp) as (lon & lat & tl & ->).
  unfold anchor_of. cbn [forEach_bbox coord nth_error].
  rewrite project_Fin.
  change (extend empty_box (Fin (fst (planeQ lon lat)), Fin (snd (planeQ lon lat))))
    with (box_of (fst (planeQ lon lat)) (fst (planeQ lon lat))
                 (snd (planeQ lon lat)) (snd (planeQ lon lat))).
  destruct (forEach_bbox_finite rest Hrest
              (fst (planeQ lon lat)) (fst (planeQ lon lat))
              (snd (planeQ lon lat)) (snd (planeQ lon lat)))
    as (a & b & c & d & -> & Ha & Hb & Hc & Hd).
  exists a, b, c, d. cbn [plane_points flat_map app map].
  repeat split; try apply Ha; try apply Hb; try apply Hc; try apply Hd.
Qed.

(** The loop over the polygons, from any intermediate state: it keeps
    [bestRing] when no first ring is longer than [maxLen], and otherwise
    ends on the first of the longest first rings. *)
Lemma forEach_poly_selects (polys : list (list Ring)) :
  Forall (fun poly => poly <> []) polys ->
  forall (maxLen : nat) (bestRing : Ring),
  exists best : Ring,
    forEach_poly polys maxLen bestRing = Returns best /\
    ((best = bestRing /\
      forall r : Ring, In r (first_rings polys) -> (List.length r <= maxLen)%nat) \/
     ((maxLen < List.length best)%nat /\ dominant (first_rings polys) best)).
Proof.
  induction 1 as [|poly rest Hpoly Hrest IH]; intros maxLen bestRing.
  - exists bestRing. split; [reflexivity|]. left. split; [reflexivity|].
    intros r [].
  - destruct poly as [|ring0 holes]; [contradiction|].
    cbn [forEach_poly first_rings map hd].
    destruct (Nat.ltb_spec maxLen (List.length ring0)) as [Hlt | Hge].
    + destruct (IH (List.length ring0) ring0) as (best & Hrun & Hsel).
      exists best. split; [exact Hrun|]. right.
      destruct Hsel as [[-> Hall] | [Hlen (i & Hi & Hmax & Hfirst)]].
      * split; [exact Hlt|]. exists 0%nat. split; [reflexivity|]. split.
        -- intros [|j] r Hr; cbn in Hr.
           ++ injection Hr as <-. lia.
           ++ apply Hall. eapply nth_error_In. exact Hr.
        -- intros j r Hj. lia.
      * split; [lia|]. exists (S i). split; [exact Hi|]. split.
        -- intros [|j] r Hr; cbn in Hr.
           ++ injection Hr as <-. lia.
           ++ now apply (Hmax j).
        -- intros [|j] r Hj Hr; cbn in Hr.
           ++ injection Hr as <-. exact Hlen.
           ++ apply (Hfirst j); [lia | exact Hr].
    + destruct (IH maxLen bestRing) as (best & Hrun & Hsel).
      exists best. split; [exact Hrun|].
      destruct Hsel as [[-> Hall] | [Hlen (i & Hi & Hmax & Hfirst)]].
      * left. split; [reflexivity|].
        intros r [<- | Hr]; [exact Hge | now apply Hall].
      * right. split; [exact Hlen|]. exists (S i). split; [exact Hi|]. split.
        -- intros [|j] r Hr; cbn in Hr.
           ++ injection Hr as <-. lia.
           ++ now apply (Hmax j).
        -- intros [|j] r Hj Hr; cbn in Hr.
           ++ injection Hr as <-. lia.
           ++ apply (Hfirst j); [lia | exact Hr].
Qed.

(** C7 (a defect of the code).  A MultiPolygon with a polygon that has
    no ring: for [[[]]] no usable ring exists, and for a triangle followed
    by a polygon without ring the triangle has the greatest vertex count,
    yet reading [poly[0].length] throws instead of giving [null] or the
    anchor of the triangle. *)
Lemma polygon_without_ring_throws :
  let props := mkProperties "Island" "ISL" in
  getLabelPosition (multipolygon_feature props [[]]) = Throws /\
  getLabelPosition (multipolygon_feature props [[triangle]; []]) = Throws /\
  getLabelPosition (multipolygon_feature props [[]]) <> Returns None.
Proof. repeat split. discriminate. Qed.

(** Away from the defect: for a MultiPolygon feature each of whose
    polygons has at least one ring, the label anchor is computed from the
    first of the first rings with the greatest vertex count; when the
    points of that ring all carry two coordinates the anchor is the
    midpoint of the bounding box of its projected points; and when there
    is no polygon or every first ring is empty the result is null. *)
Theorem label_anchor_of_multipolygon (props : CountryProperties)
  (polys : list (list Ring)) :
  Forall (fun poly => poly <> []) polys ->
  let feature := multipolygon_feature props polys in
  let rings := first_rings polys in
  exists best : Ring,
    getLabelPosition feature = anchor_of best /\
    ((best = [] /\ Forall (fun r => r = []) rings) \/
     (best <> [] /\ dominant rings best)) /\
    (best = [] -> getLabelPosition feature = Returns None) /\
    (best <> [] -> all_valid best ->
     exists minX maxX minY maxY : Q,
       least minX (map fst (plane_points best)) /\
       greatest maxX (map fst (plane_points best)) /\
       least minY (map snd (plane_points best)) /\
       greatest maxY (map snd (plane_points best)) /\
       getLabelPosition feature
       = Returns (Some (Fin ((minX + maxX) / 2), Fin ((minY + maxY) / 2)))).
Proof.
  intros Hpolys feature rings.
  destruct (forEach_poly_selects polys Hpolys 0%nat []) as (best & Hrun & Hsel).
  assert (Hget : getLabelPosition feature = anchor_of best).
  { unfold getLabelPosition, feature, multipolygon_feature. cbn [geometry].
    now rewrite Hrun. }
  exists best. split; [exact Hget|]. split; [|split].
  - destruct Hsel as [[-> Hall] | [Hlen Hdom]].
    + left. split; [reflexivity|]. apply Forall_forall. intros r Hr.
      specialize (Hall r Hr). destruct r; [reflexivity | cbn in Hall; lia].
    + right. split; [|exact Hdom]. intros ->. cbn in Hlen. lia.
  - intros ->. rewrite Hget. reflexivity.
  - intros Hne Hv. rewrite Hget. now apply anchor_of_midpoint.
Qed.

(** Two polygons, the second with the longer first ring: the anchor is
    the midpoint of the bounding box of the second. *)
Lemma label_anchor_of_multipolygon_witness :
  let small := [PArr [0; 0]; PArr [36; 0]; PArr [0; 18]] in
  let large := [PArr [-36; 0]; PArr [0; 0]; PArr [0; -18]; PArr [-36; -18]] in
  let feature := multipolygon_feature (mkProperties "Island" "ISL") [[small]; [large]] in
  exists best : Ring,
    getLabelPosition feature = anchor_of best /\
    ((best = [] /\ Forall (fun r => r = []) [small; large]) \/
     (best <> [] /\ dominant [small; large] best)).
Proof.
  intros small large feature.
  destruct (label_anchor_of_multipolygon (mkProperties "Island" "ISL")
              [[small]; [large]]) as (best & Hget & Hsel & _).
  - repeat constructor; discriminate.
  - exists best. split; [exact Hget | exact Hsel].
Defined.

Example anchor_of_larger_polygon :
  let small := [PArr [0; 0]; PArr [36; 0]; PArr [0; 18]] in
  let large := [PArr [-36; 0]; PArr [0; 0]; PArr [0; -18]; PArr [-36; -18]] in
  forEach_poly [[small]; [large]] 0 [] = Returns large /\
  match getLabelPosition
          (multipolygon_feature (mkProperties "Island" "ISL") [[small]; [large]]) with
  | Returns (Some (Fin x, Fin y)) => x == 450 /\ y == 275
  | _ => False
  end.
Proof. split; [reflexivity|]. vm_compute. split; reflexivity. Qed.

(** The three zooms from the transform [{k: 2, x: 10, y: 20}]: the button
    with factor 1.2, a wheel turn at the screen point (300, 200), a pinch
    from the finger distance 5 to the distance 10. *)
Lemma zoom_focal_point_invariant_witness :
  let s := mkState (Transform.mk (Fin 2) (Fin 10) (Fin 20)) false (Pos.mk 0 0)
                   false (Some (Fin 5)) (Fin 2) in
  let a := Touch.mk 100 100 in
  let b := Touch.mk 106 108 in
  zoomed 2 10 20 (MAP_WIDTH / 2) (MAP_HEIGHT / 2) (2 * 1.2)
    (transform (handleZoom (Fin 1.2) s)) /\
  zoomed 2 10 20 (plane_x rect_1000_500 300) (plane_y rect_1000_500 200)
    (2 * wheel_factor (WheelEvent.mk 300 200 (-1)))
    (transform (handleWheel (Some rect_1000_500) (WheelEvent.mk 300 200 (-1)) s)) /\
  exists d : Q,
    getTouchDistance isqrtQ a b = Fin d /\
    zoomed 2 10 20
      (plane_x rect_1000_500 ((100 + 106) / 2))
      (plane_y rect_1000_500 ((100 + 108) / 2))
      (2 * (d / 5))
      (transform (handleTouchMove isqrtQ (Some rect_1000_500) (TouchList.mk a [b]) s)).
Proof.
  intros s a b.
  destruct (zoom_focal_point_invariant isqrtQ s 2 10 20 eq_refl eq_refl)
    as (Hbutton & Hwheel & Hpinch).
  split; [exact (Hbutton 1.2)|]. split.
  - apply (Hwheel rect_1000_500 (WheelEvent.mk 300 200 (-1)));
      intros H; discriminate H.
  - apply (Hpinch rect_1000_500 a b 5 2); try reflexivity;
      intros H; discriminate H.
Defined.

(* ================================================================== *)
(** * The projection *)

(** The two ratios of [project] as fractions, for linear arithmetic. *)
Ltac plane_constants :=
  change (1000 / 360) with (1000 # 360) in *;
  change (500 / 180) with (500 # 180) in *.

(** X1.  The projection takes the geographic domain into the canvas: a
    longitude in [-180, 180] and a latitude in [-90, 90] give a finite
    plane point with [0 <= x <= MAP_WIDTH] and [0 <= y <= MAP_HEIGHT]. *)
Theorem project_in_canvas (lon lat : Q) :
  -180 <= lon <= 180 ->
  -90 <= lat <= 90 ->
  exists x y : Q,
    project (Fin lon) (Fin lat) = (Fin x, Fin y) /\
    0 <= x <= MAP_WIDTH /\ 0 <= y <= MAP_HEIGHT.
Proof.
  intros Hlon Hlat.
  exists (fst (planeQ lon lat)), (snd (planeQ lon lat)).
  split; [apply project_Fin|].
  unfold planeQ, MAP_WIDTH, MAP_HEIGHT. cbn [fst snd]. plane_constants.
  split; split; lra.
Qed.

Lemma project_in_canvas_witness :
  exists x y : Q,
    project (Fin 151) (Fin (-34)) = (Fin x, Fin y) /\
    0 <= x <= MAP_WIDTH /\ 0 <= y <= MAP_HEIGHT.
Proof.
  apply project_in_canvas; split; discriminate.
Defined.

(** X3.  East is never left of west and north never below south: the
    plane abscissa does not fall when the longitude grows, and the plane
    ordinate does not grow when the latitude grows. *)
Theorem project_orientation (lon1 lat1 lon2 lat2 : Q) :
  exists x1 y1 x2 y2 : Q,
    project (Fin lon1) (Fin lat1) = (Fin x1, Fin y1) /\
    project (Fin lon2) (Fin lat2) = (Fin x2, Fin y2) /\
    (lon1 <= lon2 -> x1 <= x2) /\
    (lat1 <= lat2 -> y2 <= y1).
Proof.
  exists (fst (planeQ lon1 lat1)), (snd (planeQ lon1 lat1)),
         (fst (planeQ lon2 lat2)), (snd (planeQ lon2 lat2)).
  split; [apply project_Fin|]. split; [apply project_Fin|].
  unfold planeQ, MAP_WIDTH, MAP_HEIGHT. cbn [fst snd]. plane_constants.
  split; intros H; lra.
Qed.

(* ================================================================== *)
(** * The label anchor of a polygon *)

Lemma in_domain_valid (point : Point) : in_domain point -> valid_point point = true.
Proof. destruct point as [|[|lon [|lat tl]]]; cbn; intros H; now try contradiction. Qed.

Lemma in_domain_all_valid (ring : Ring) : Forall in_domain ring -> all_valid ring.
Proof.
  intros H. unfold all_valid. eapply Forall_impl; [|exact H].
  intros point. apply in_domain_valid.
Qed.

Lemma plane_points_in_canvas (ring : Ring) :
  Forall in_domain ring ->
  forall p : Q * Q,
    In p (plane_points ring) ->
    (0 <= fst p <= MAP_WIDTH) /\ (0 <= snd p <= MAP_HEIGHT).
Proof.
  induction 1 as [|point rest Hp Hrest IH]; intros p Hin; [contradiction|].
  destruct point as [|[|lon [|lat tl]]]; try contradiction.
  cbn [plane_points flat_map] in Hin. apply in_app_or in Hin as [[<- | []] | Hin].
  - destruct Hp as [Hlon Hlat].
    unfold planeQ, MAP_WIDTH, MAP_HEIGHT. cbn [fst snd]. plane_constants.
    split; split; lra.
  - now apply IH.
Qed.

Lemma anchor_of_in_canvas (ring : Ring) :
  ring <> [] ->
  Forall in_domain ring ->
  exists ax ay : Q,
    anchor_of ring = Returns (Some (Fin ax, Fin ay)) /\
    0 <= ax <= MAP_WIDTH /\ 0 <= ay <= MAP_HEIGHT.
Proof.
  intros Hne Hdom.
  destruct (anchor_of_midpoint ring Hne (in_domain_all_valid _ Hdom))
    as (a & b & c & d & [Ha _] & [Hb _] & [Hc _] & [Hd _] & Hanchor).
  apply in_map_iff in Ha as (pa & <- & Ha), Hb as (pb & <- & Hb),
                      Hc as (pc & <- & Hc), Hd as (pd & <- & Hd).
  pose proof (plane_points_in_canvas ring Hdom) as Hcanvas.
  destruct (Hcanvas pa Ha) as [Ha' _]. destruct (Hcanvas pb Hb) as [Hb' _].
  destruct (Hcanvas pc Hc) as [_ Hc']. destruct (Hcanvas pd Hd) as [_ Hd'].
  exists ((fst pa + fst pb) / 2), ((snd pc + snd pd) / 2).
  split; [exact Hanchor|].
  unfold MAP_WIDTH, MAP_HEIGHT in *.
  change ((fst pa + fst pb) / 2) with ((fst pa + fst pb) * (1 # 2)).
  change ((snd pc + snd pd) / 2) with ((snd pc + snd pd) * (1 # 2)).
  split; split; lra.
Qed.

(** X4.  The label anchor of a Polygon feature comes from its first ring
    alone: with a non-empty first ring of valid points it is the midpoint
    of the bounding box of that ring, whatever the rings after it are;
    without a ring, or with an empty first ring, it is null. *)
Theorem label_anchor_of_polygon (props : CountryProperties) (ring0 : Ring)
  (holes : list Ring) :
  getLabelPosition (polygon_feature props []) = Returns None /\
  getLabelPosition (polygon_feature props ([] :: holes)) = Returns None /\
  (ring0 <> [] ->
   all_valid ring0 ->
   exists minX maxX minY maxY : Q,
     least minX (map fst (plane_points ring0)) /\
     greatest maxX (map fst (plane_points ring0)) /\
     least minY (map snd (plane_points ring0)) /\
     greatest maxY (map snd (plane_points ring0)) /\
     getLabelPosition (polygon_feature props (ring0 :: holes))
     = Returns (Some (Fin ((minX + maxX) / 2), Fin ((minY + maxY) / 2)))).
Proof.
  split; [reflexivity|]. split; [reflexivity|].
  intros Hne Hv. now apply anchor_of_midpoint.
Qed.

Lemma label_anchor_of_polygon_witness :
  exists minX maxX minY maxY : Q,
    least minX (map fst (plane_points triangle)) /\
    greatest maxX (map fst (plane_points triangle)) /\
    least minY (map snd (plane_points triangle)) /\
    greatest maxY (map snd (plane_points triangle)) /\
    getLabelPosition (polygon_feature (mkProperties "Island" "ISL") [triangle; triangle])
    = Returns (Some (Fin ((minX + maxX) / 2), Fin ((minY + maxY) / 2))).
Proof.
  apply (proj2 (proj2 (label_anchor_of_polygon
                         (mkProperties "Island" "ISL") triangle [triangle]))).
  - discriminate.
  - repeat constructor.
Defined.

(** X5.  A label anchor is on the canvas: when the points of the first rings
    lie in the geographic domain, the anchor of a Polygon with a non-empty
    first ring, and the anchor of a MultiPolygon whose polygons all have a
    ring, if it is not null, is a finite point with [0 <= x <= MAP_WIDTH]
    and [0 <= y <= MAP_HEIGHT]. *)
Theorem label_anchor_in_canvas (props : CountryProperties) :
  (forall (ring0 : Ring) (holes : list Ring),
     ring0 <> [] ->
     Forall in_domain ring0 ->
     exists ax ay : Q,
       getLabelPosition (polygon_feature props (ring0 :: holes))
       = Returns (Some (Fin ax, Fin ay)) /\
       0 <= ax <= MAP_WIDTH /\ 0 <= ay <= MAP_HEIGHT) /\
  (forall polys : list (list Ring),
     Forall (fun poly => poly <> []) polys ->
     Forall (Forall in_domain) (first_rings polys) ->
     getLabelPosition (multipolygon_feature props polys) = Returns None \/
     exists ax ay : Q,
       getLabelPosition (multipolygon_feature props polys)
       = Returns (Some (Fin ax, Fin ay)) /\
       0 <= ax <= MAP_WIDTH /\ 0 <= ay <= MAP_HEIGHT).
Proof.
  split.
  - intros ring0 holes Hne Hdom. now apply anchor_of_in_canvas.
  - intros polys Hpolys Hdom.
    destruct (forEach_poly_selects polys Hpolys 0%nat []) as (best & Hrun & Hsel).
    unfold getLabelPosition, multipolygon_feature. cbn [geometry]. rewrite Hrun.
    destruct Hsel as [[-> _] | [Hlen (i & Hi & _)]]; [now left | right].
    apply anchor_of_in_canvas.
    + intros ->. cbn in Hlen. lia.
    + apply nth_error_In in Hi. rewrite Forall_forall in Hdom. now apply Hdom.
Qed.

Lemma label_anchor_in_canvas_witness :
  exists ax ay : Q,
    getLabelPosition island = Returns (Some (Fin ax, Fin ay)) /\
    0 <= ax <= MAP_WIDTH /\ 0 <= ay <= MAP_HEIGHT.
Proof.
  apply (proj1 (label_anchor_in_canvas (mkProperties "Island" "ISL")) triangle []).
  - discriminate.
  - repeat constructor; discriminate.
Defined.

Lemma forEach_bbox_throws (ring : Ring) :
  forall b : Box, forEach_bbox ring b = Throws <-> In PNull ring.
Proof.
  induction ring as [|point rest IH]; intros b; cbn [forEach_bbox In].
  - split; [discriminate | contradiction].
  - destruct point as [|p].
    + split; [now left | reflexivity].
    + rewrite IH. split; [now right | intros [H | H]; [discriminate H | exact H]].
Qed.

(** X6.  On rings of arrays and nulls, the label anchor of a Polygon
    feature throws exactly when its first ring contains a [null]; the
    rings after the first cannot make it throw. *)
Theorem label_anchor_throws_on_null_point (props : CountryProperties)
  (ring0 : Ring) (holes : list Ring) :
  getLabelPosition (polygon_feature props (ring0 :: holes)) = Throws
  <-> In PNull ring0.
Proof.
  unfold getLabelPosition, polygon_feature, anchor_of. cbn [geometry].
  destruct ring0 as [|point rest].
  - split; [discriminate | contradiction].
  - rewrite <- (forEach_bbox_throws (point :: rest) empty_box).
    destruct (forEach_bbox (point :: rest) empty_box); split; intros H;
      try reflexivity; discriminate H.
Qed.

Lemma coord_short (c : list Q) : (List.length c < 2)%nat -> coord c 1 = NaN.
Proof.
  intros H. unfold coord. destruct c as [|lon [|lat tl]]; try reflexivity.
  cbn in H. lia.
Qed.

Lemma forEach_bbox_short (ring : Ring) :
  Forall short_array ring ->
  forall b : Box,
    minY b = PInf -> maxY b = NInf ->
    exists b' : Box,
      forEach_bbox ring b = Returns b' /\ minY b' = PInf /\ maxY b' = NInf.
Proof.
  induction 1 as [|point rest (c & -> & Hc) Hrest IH]; intros b Hmin Hmax.
  - now exists b.
  - cbn [forEach_bbox]. rewrite (coord_short c Hc). apply IH.
    + cbn. exact Hmin.
    + cbn. rewrite Hmax. reflexivity.
Qed.

Lemma short_array_invalid (point : Point) : short_array point -> valid_point point = false.
Proof.
  intros (c & -> & Hc). destruct c as [|lon [|lat tl]]; try reflexivity.
  cbn in Hc. lia.
Qed.

(** X7.  Points without a latitude give an anchor that is not a number, not
    null: for a Polygon whose first ring is not empty and has only arrays
    of fewer than two coordinates, the path builder draws nothing but the
    close of the ring, while the label anchor has the ordinate [NaN]. *)
Theorem label_anchor_NaN_without_latitude (toString : jsnum -> string)
  (props : CountryProperties) (ring0 : Ring) :
  ring0 <> [] ->
  Forall short_array ring0 ->
  createPath toString (polygon_feature props [ring0]) = "Z "%string /\
  exists ax : jsnum,
    getLabelPosition (polygon_feature props [ring0]) = Returns (Some (ax, NaN)).
Proof.
  intros Hne Hshort. split.
  - rewrite createPath_polygon_cons, drawPolygon_render. unfold ring_cmds.
    rewrite point_cmds_no_valid; [reflexivity|].
    clear Hne. induction Hshort as [|point rest Hp Hrest IH]; [reflexivity|].
    cbn [existsb]. now rewrite (short_array_invalid _ Hp), IH.
  - unfold getLabelPosition, polygon_feature, anchor_of. cbn [geometry].
    destruct ring0 as [|point rest]; [contradiction|].
    destruct (forEach_bbox_short _ Hshort empty_box eq_refl eq_refl)
      as (b' & -> & Hmin & Hmax).
    rewrite Hmin, Hmax. eexists. reflexivity.
Qed.

Lemma label_anchor_NaN_without_latitude_witness :
  createPath show_number (polygon_feature (mkProperties "Island" "ISL") [[PArr [7]; PArr []]])
  = "Z "%string /\
  exists ax : jsnum,
    getLabelPosition (polygon_feature (mkProperties "Island" "ISL") [[PArr [7]; PArr []]])
    = Returns (Some (ax, NaN)).
Proof.
  apply label_anchor_NaN_without_latitude.
  - discriminate.
  - repeat constructor.
    + exists [7]. split; [reflexivity | cbn; lia].
    + exists []. split; [reflexivity | cbn; lia].
Defined.

(* ================================================================== *)
(** * Sanitation of the loaded features *)

Lemma or_string_truthy (a : option string) (b : string) :
  str_truthy b = true -> str_truthy (or_string a b) = true.
Proof.
  intros Hb. unfold or_string. destruct a as [s|]; [|exact Hb].
  destruct (str_truthy s) eqn:Hs; [exact Hs | exact Hb].
Qed.

Lemma str_truthy_not_empty (s : string) : str_truthy s = true <-> s <> ""%string.
Proof.
  unfold str_truthy. rewrite negb_true_iff. apply String.eqb_neq.
Qed.

Lemma sanitizeFeature_id_truthy (f : RawFeature.t) (index : nat) :
  str_truthy (id (properties (sanitizeFeature f index))) = true.
Proof. cbn. now apply or_string_truthy. Qed.

Lemma sanitizeFeature_name (f : RawFeature.t) (index : nat) :
  str_truthy (name (properties (sanitizeFeature f index))) = true /\
  name (properties (sanitizeFeature f index)) <> "Taiwan"%string.
Proof.
  cbn [sanitizeFeature properties name].
  destruct (String.eqb_spec
              (or_string (optional_property f RawProperties.name) "Unknown Country")
              "Taiwan") as [E | E].
  - split; [reflexivity | discriminate].
  - split; [now apply or_string_truthy | exact E].
Qed.

Lemma sanitizeFeature_kept (f : RawFeature.t) (index : nat) :
  kept (sanitizeFeature f index) = has_geometry (RawFeature.geometry f).
Proof.
  unfold kept. rewrite sanitizeFeature_id_truthy.
  rewrite (proj1 (sanitizeFeature_name f index)). reflexivity.
Qed.

Lemma In_map_index {A B : Type} (g : A -> nat -> B) (l : list A) :
  forall (index : nat) (b : B),
    In b (map_index g l index) -> exists (a : A) (i : nat), In a l /\ b = g a i.
Proof.
  induction l as [|a rest IH]; intros index b Hin; [contradiction|].
  destruct Hin as [<- | Hin].
  - exists a, index. split; [now left | reflexivity].
  - destruct (IH _ _ Hin) as (a' & i & Ha & ->).
    exists a', i. split; [now right | reflexivity].
Qed.

Lemma sanitized_feature_truthy (features : list RawFeature.t) (f : GeoJSONFeature) :
  In f (sanitizedFeatures features) ->
  str_truthy (id (properties f)) = true /\
  str_truthy (name (properties f)) = true /\
  name (properties f) <> "Taiwan"%string /\
  has_geometry (geometry f) = true.
Proof.
  unfold sanitizedFeatures. intros Hin. apply filter_In in Hin as [Hin Hkept].
  destruct (In_map_index _ _ _ _ Hin) as (raw & i & _ & ->).
  rewrite sanitizeFeature_kept in Hkept.
  split; [apply sanitizeFeature_id_truthy|].
  split; [apply sanitizeFeature_name|].
  split; [apply sanitizeFeature_name | exact Hkept].
Qed.

(** X8.  Every feature that passes the sanitation has a non-empty id, a
    non-empty name other than "Taiwan", and a geometry. *)
Theorem sanitized_features_well_formed (features : list RawFeature.t)
  (f : GeoJSONFeature) :
  In f (sanitizedFeatures features) ->
  id (properties f) <> ""%string /\
  name (properties f) <> ""%string /\
  name (properties f) <> "Taiwan"%string /\
  geometry f <> None.
Proof.
  intros Hin.
  destruct (sanitized_feature_truthy features f Hin) as (Hid & Hname & Htw & Hg).
  split; [now apply str_truthy_not_empty|].
  split; [now apply str_truthy_not_empty|].
  split; [exact Htw|].
  intros E. rewrite E in Hg. discriminate Hg.
Qed.

Lemma sanitized_features_well_formed_witness :
  let raw := RawFeature.mk None
               (Some (RawProperties.mk None None (Some "Taiwan"%string)))
               (Some (Polygon (Some [triangle]))) in
  let f := sanitizeFeature raw 0 in
  In f (sanitizedFeatures [raw]) /\
  id (properties f) <> ""%string /\
  name (properties f) <> ""%string /\
  name (properties f) <> "Taiwan"%string /\
  geometry f <> None.
Proof.
  intros raw f.
  assert (Hin : In f (sanitizedFeatures [raw])) by (left; reflexivity).
  split; [exact Hin|].
  exact (sanitized_features_well_formed [raw] f Hin).
Defined.

Lemma map_index_geometry (features : list RawFeature.t) :
  forall index : nat,
    map geometry (filter kept (map_index sanitizeFeature features index))
    = filter has_geometry (map RawFeature.geometry features).
Proof.
  induction features as [|raw rest IH]; intros index; [reflexivity|].
  cbn [map_index filter map]. rewrite sanitizeFeature_kept.
  destruct (has_geometry (RawFeature.geometry raw)); cbn [map]; now rewrite IH.
Qed.

Lemma map_index_nth {A B : Type} (g : A -> nat -> B) (l : list A) :
  forall (start i : nat) (a : A),
    nth_error l i = Some a -> In (g a (start + i)%nat) (map_index g l start).
Proof.
  induction l as [|x rest IH]; intros start i a Hnth.
  - destruct i; discriminate Hnth.
  - destruct i as [|i]; cbn [nth_error] in Hnth.
    + injection Hnth as ->. rewrite Nat.add_0_r. now left.
    + right. rewrite <- Nat.add_succ_comm. now apply IH.
Qed.

Lemma or_else_absent (a b : option string) : absent a -> or_else a b = b.
Proof. now intros [-> | ->]. Qed.

Lemma or_string_absent (a : option string) (b : string) : absent a -> or_string a b = b.
Proof. now intros [-> | ->]. Qed.

(** X9.  The sanitation drops a feature only for a missing geometry: the
    geometries of the sanitized features are the geometries present in
    the loaded features, in the same order, and every loaded feature with
    a geometry is among the sanitized ones; a feature without name gets
    the name "Unknown Country", and a feature without id, iso_a3 and name
    gets the id "unknown-" followed by its index. *)
Theorem sanitation_drops_only_missing_geometry (features : list RawFeature.t) :
  map geometry (sanitizedFeatures features)
  = filter has_geometry (map RawFeature.geometry features) /\
  List.length (sanitizedFeatures features)
  = List.length (filter (fun raw => has_geometry (RawFeature.geometry raw)) features) /\
  (forall (raw : RawFeature.t) (index : nat),
     nth_error features index = Some raw ->
     RawFeature.geometry raw <> None ->
     In (sanitizeFeature raw index) (sanitizedFeatures features)) /\
  (forall (raw : RawFeature.t) (index : nat),
     absent (optional_property raw RawProperties.name) ->
     name (properties (sanitizeFeature raw index)) = "Unknown Country"%string) /\
  (forall (raw : RawFeature.t) (index : nat),
     absent (RawFeature.id raw) ->
     absent (optional_property raw RawProperties.id) ->
     absent (optional_property raw RawProperties.iso_a3) ->
     absent (optional_property raw RawProperties.name) ->
     id (properties (sanitizeFeature raw index))
     = ("unknown-" ++ index_toString index)%string).
Proof.
  split; [apply map_index_geometry|]. split; [|split; [|split]].
  - unfold sanitizedFeatures. rewrite <- (length_map geometry), map_index_geometry.
    induction features as [|raw rest IH]; [reflexivity|].
    cbn [map filter].
    destruct (has_geometry (RawFeature.geometry raw)); cbn [List.length];
      now rewrite IH.
  - intros raw index Hnth Hg. unfold sanitizedFeatures. apply filter_In. split.
    + exact (map_index_nth sanitizeFeature features 0 index raw Hnth).
    + rewrite sanitizeFeature_kept. now destruct (RawFeature.geometry raw).
  - intros raw index Hname. cbn [sanitizeFeature properties name].
    now rewrite (or_string_absent _ _ Hname).
  - intros raw index H1 H2 H3 H4. cbn [sanitizeFeature properties id].
    rewrite (or_else_absent _ _ H1), (or_else_absent _ _ H2), (or_else_absent _ _ H3).
    now apply or_string_absent.
Qed.

Lemma sanitation_drops_only_missing_geometry_witness :
  let raw := RawFeature.mk None None (Some (Polygon (Some [triangle]))) in
  let features := [RawFeature.mk (Some "FRA"%string) None None; raw] in
  In (sanitizeFeature raw 1) (sanitizedFeatures features) /\
  name (properties (sanitizeFeature raw 1)) = "Unknown Country"%string /\
  id (properties (sanitizeFeature raw 1)) = "unknown-1"%string.
Proof.
  intros raw features.
  destruct (sanitation_drops_only_missing_geometry features)
    as (_ & _ & Hin & Hname & Hid).
  split; [|split].
  - apply Hin; [reflexivity | discriminate].
  - apply Hname. now left.
  - apply (Hid raw 1%nat); now left.
Defined.

(* ================================================================== *)
(** * Toggling a visited country *)

Lemma obj_get_delete_same (o : Visited) (key : string) :
  obj_get (obj_delete o key) key = None.
Proof.
  induction o as [|[k v] rest IH]; [reflexivity|].
  cbn [obj_delete filter fst]. destruct (String.eqb k key) eqn:E; cbn [negb].
  - exact IH.
  - cbn [obj_get]. rewrite E. exact IH.
Qed.

Lemma obj_get_delete_other (o : Visited) (key other : string) :
  other <> key -> obj_get (obj_delete o key) other = obj_get o other.
Proof.
  intros Hne. induction o as [|[k v] rest IH]; [reflexivity|].
  cbn [obj_delete filter fst]. destruct (String.eqb_spec k key) as [-> | E]; cbn [negb].
  - cbn [obj_get]. rewrite (proj2 (String.eqb_neq key other)) by congruence. exact IH.
  - fold (obj_delete rest key). cbn [obj_get]. now rewrite IH.
Qed.

Lemma obj_get_None (o : Visited) (key : string) :
  obj_get o key = None <-> ~ In key (Object_keys o).
Proof.
  induction o as [|[k v] rest IH]; cbn [obj_get Object_keys map fst In].
  - split; [intros _ [] | reflexivity].
  - destruct (String.eqb_spec k key) as [-> | E].
    + split; [discriminate | intros H; exfalso; apply H; now left].
    + rewrite IH. unfold Object_keys. split.
      * intros H [E' | H']; [contradiction | now apply H].
      * intros H H'. apply H. now right.
Qed.

Lemma obj_delete_absent (o : Visited) (key : string) :
  obj_get o key = None -> obj_delete o key = o.
Proof.
  induction o as [|[k v0] rest IH]; cbn [obj_delete filter obj_get fst]; [reflexivity|].
  destruct (String.eqb k key); [discriminate|].
  intros H. cbn [negb]. f_equal. now apply IH.
Qed.

Lemma obj_delete_length (o : Visited) (key : string) :
  NoDup (Object_keys o) ->
  obj_get o key <> None ->
  S (List.length (obj_delete o key)) = List.length o.
Proof.
  induction o as [|[k v] rest IH]; cbn [Object_keys map fst obj_get]; intros Hnd Hget.
  - contradiction.
  - inversion Hnd as [|? ? Hk Hrest]; subst.
    cbn [obj_delete filter fst]. destruct (String.eqb_spec k key) as [-> | E]; cbn [negb].
    + fold (obj_delete rest key). rewrite obj_delete_absent; [reflexivity|].
      now apply obj_get_None.
    + cbn [List.length]. f_equal. now apply IH.
Qed.

Lemma obj_delete_keys (o : Visited) (key : string) :
  NoDup (Object_keys o) -> NoDup (Object_keys (obj_delete o key)).
Proof.
  unfold Object_keys, obj_delete.
  induction o as [|[k v] rest IH]; intros Hnd; [constructor|].
  inversion Hnd as [|? ? Hk Hrest]; subst. cbn [filter fst].
  destruct (negb (String.eqb k key)); [|now apply IH].
  cbn [map fst]. constructor; [|now apply IH].
  intros Hin. apply Hk. apply in_map_iff in Hin as ([k' v'] & <- & Hin).
  apply filter_In in Hin as [Hin _]. apply in_map_iff. now exists (k', v').
Qed.

Lemma obj_get_app (o1 o2 : Visited) (key : string) :
  obj_get (o1 ++ o2) key
  = match obj_get o1 key with Some v => Some v | None => obj_get o2 key end.
Proof.
  induction o1 as [|[k v] rest IH]; [reflexivity|].
  cbn [app obj_get]. now destruct (String.eqb k key).
Qed.

(** A new entry takes a place among the entries, which keep their order. *)
Lemma obj_insert_index_place (o : Visited) (n : N) (key : string)
  (v : VisitedCountry.t) :
  exists l1 l2 : Visited,
    o = l1 ++ l2 /\ obj_insert_index o n key v = l1 ++ (key, v) :: l2.
Proof.
  induction o as [|[k v0] rest (l1 & l2 & Ho & Hi)].
  - now exists [], [].
  - cbn [obj_insert_index].
    destruct (array_index k) as [m|]; [destruct (m <? n)%N|].
    + exists ((k, v0) :: l1), l2. cbn [app]. now rewrite <- Ho, Hi.
    + now exists [], ((k, v0) :: rest).
    + now exists [], ((k, v0) :: rest).
Qed.

Lemma obj_set_place (o : Visited) (key : string) (v : VisitedCountry.t) :
  obj_get o key = None ->
  exists l1 l2 : Visited, o = l1 ++ l2 /\ obj_set o key v = l1 ++ (key, v) :: l2.
Proof.
  intros Hget. unfold obj_set. rewrite Hget.
  destruct (array_index key) as [n|].
  - apply obj_insert_index_place.
  - exists o, []. now rewrite app_nil_r.
Qed.

Lemma obj_get_placed_same (l1 l2 : Visited) (key : string) (v : VisitedCountry.t) :
  obj_get (l1 ++ l2) key = None -> obj_get (l1 ++ (key, v) :: l2) key = Some v.
Proof.
  rewrite !obj_get_app. destruct (obj_get l1 key); [discriminate|].
  intros _. cbn [obj_get]. now rewrite String.eqb_refl.
Qed.

Lemma obj_get_placed_other (l1 l2 : Visited) (key other : string)
  (v : VisitedCountry.t) :
  other <> key -> obj_get (l1 ++ (key, v) :: l2) other = obj_get (l1 ++ l2) other.
Proof.
  intros Hne. rewrite !obj_get_app. cbn [obj_get].
  now rewrite (proj2 (String.eqb_neq key other)) by congruence.
Qed.

Lemma obj_delete_placed (l1 l2 : Visited) (key : string) (v : VisitedCountry.t) :
  obj_get (l1 ++ l2) key = None -> obj_delete (l1 ++ (key, v) :: l2) key = l1 ++ l2.
Proof.
  intros Hget. rewrite obj_get_app in Hget.
  destruct (obj_get l1 key) eqn:H1; [discriminate|].
  unfold obj_delete. rewrite filter_app. cbn [filter fst].
  rewrite String.eqb_refl. cbn [negb].
  fold (obj_delete l1 key). fold (obj_delete l2 key).
  now rewrite (obj_delete_absent _ _ H1), (obj_delete_absent _ _ Hget).
Qed.

Lemma keys_placed (l1 l2 : Visited) (key : string) (v : VisitedCountry.t) :
  NoDup (Object_keys (l1 ++ l2)) ->
  obj_get (l1 ++ l2) key = None ->
  NoDup (Object_keys (l1 ++ (key, v) :: l2)).
Proof.
  intros Hnd Hget. apply obj_get_None in Hget.
  unfold Object_keys in *. rewrite map_app in *. cbn [map fst].
  apply (NoDup_Add (Add_app key (map fst l1) (map fst l2))).
  split; assumption.
Qed.

(** What a toggle does to [visited] when the store is local, a user is
    signed in and the id is not empty. *)
Lemma toggleCountry_local (appId : string) (u : User) (visited : Visited) (now : Z)
  (feature : GeoJSONFeature) :
  str_truthy (id (properties feature)) = true ->
  toggleCountry false appId (Some u) visited now feature
  = SetVisited
      (if truthy_member visited (id (properties feature))
       then obj_delete visited (id (properties feature))
       else obj_set visited (id (properties feature))
              (VisitedCountry.mk (id (properties feature))
                 (if str_truthy (name (properties feature))
                  then name (properties feature) else id (properties feature))
                 now)).
Proof.
  intros Hid. unfold toggleCountry. rewrite Hid. reflexivity.
Qed.

Lemma truthy_member_own (visited : Visited) (key : string) :
  is_prototype_member key = false ->
  truthy_member visited key = is_visited visited key.
Proof.
  intros Hp. unfold truthy_member, is_visited. rewrite Hp.
  now destruct (obj_get visited key).
Qed.

(** X10.  With the local store, a signed-in user and an id that is not
    empty and not the name of a member of [Object.prototype], a toggle
    flips whether the country is visited, leaves every other country as
    it is, keeps the keys distinct and changes the number of visited
    countries by exactly one. *)
Theorem toggle_flips_one_country (appId : string) (u : User) (visited : Visited)
  (now : Z) (feature : GeoJSONFeature) :
  NoDup (Object_keys visited) ->
  id (properties feature) <> ""%string ->
  is_prototype_member (id (properties feature)) = false ->
  exists newVisited : Visited,
    toggleCountry false appId (Some u) visited now feature = SetVisited newVisited /\
    is_visited newVisited (id (properties feature))
    = negb (is_visited visited (id (properties feature))) /\
    (forall other : string,
       other <> id (properties feature) ->
       obj_get newVisited other = obj_get visited other) /\
    NoDup (Object_keys newVisited) /\
    visitedCount newVisited
    = if is_visited visited (id (properties feature))
      then Nat.pred (visitedCount visited) else S (visitedCount visited).
Proof.
  intros Hnd Hid Hproto. apply str_truthy_not_empty in Hid.
  eexists. split; [apply (toggleCountry_local appId u visited now feature Hid)|].
  rewrite (truthy_member_own _ _ Hproto).
  unfold is_visited, visitedCount, Object_keys.
  destruct (obj_get visited (id (properties feature))) as [v|] eqn:Hget.
  - split; [now rewrite obj_get_delete_same|].
    split; [intros other Hne; now apply obj_get_delete_other|].
    split; [now apply obj_delete_keys|].
    rewrite !length_map, <- (obj_delete_length visited (id (properties feature)) Hnd).
    + reflexivity.
    + now rewrite Hget.
  - match goal with |- context [obj_set visited ?k ?e] =>
      destruct (obj_set_place visited k e Hget) as (l1 & l2 & Hv & ->)
    end.
    rewrite Hv in Hget, Hnd |- *.
    split; [now rewrite obj_get_placed_same|].
    split; [intros other Hne; now apply obj_get_placed_other|].
    split; [now apply keys_placed|].
    rewrite !length_map, !length_app. cbn [List.length]. lia.
Qed.

Lemma toggle_flips_one_country_witness :
  exists newVisited : Visited,
    toggleCountry false "app" (Some (mkUser "demo-user")) [] 0 island
    = SetVisited newVisited /\
    is_visited newVisited "ISL" = true.
Proof.
  destruct (toggle_flips_one_country "app" (mkUser "demo-user") [] 0 island)
    as (newVisited & Heq & Hflip & _).
  - constructor.
  - discriminate.
  - reflexivity.
  - exists newVisited. split; [exact Heq | exact Hflip].
Defined.

(** X11.  Toggling a country twice, with the local store and an id that
    is not empty and not the name of a member of [Object.prototype]: a
    country that was not visited is not visited again and [visited] is
    exactly what it was; a country that was visited is visited again,
    with the time of the second toggle instead of its first visit. *)
Theorem toggle_twice (appId : string) (u : User) (visited : Visited)
  (now1 now2 : Z) (feature : GeoJSONFeature) :
  id (properties feature) <> ""%string ->
  is_prototype_member (id (properties feature)) = false ->
  exists v1 v2 : Visited,
    toggleCountry false appId (Some u) visited now1 feature = SetVisited v1 /\
    toggleCountry false appId (Some u) v1 now2 feature = SetVisited v2 /\
    (is_visited visited (id (properties feature)) = false -> v2 = visited) /\
    (is_visited visited (id (properties feature)) = true ->
     exists entry : VisitedCountry.t,
       obj_get v2 (id (properties feature)) = Some entry /\
       VisitedCountry.visitedAt entry = now2).
Proof.
  intros Hid Hproto. apply str_truthy_not_empty in Hid.
  eexists. eexists.
  split; [apply (toggleCountry_local appId u visited now1 feature Hid)|].
  split; [apply (toggleCountry_local appId u _ now2 feature Hid)|].
  rewrite !(truthy_member_own _ _ Hproto).
  unfold is_visited.
  destruct (obj_get visited (id (properties feature))) as [v|] eqn:Hget.
  - split; [discriminate|]. intros _.
    rewrite obj_get_delete_same.
    match goal with |- context [obj_set ?o ?k ?e] =>
      destruct (obj_set_place o k e (obj_get_delete_same visited _))
        as (l1 & l2 & Hv & ->);
      exists e
    end.
    split; [|reflexivity].
    apply obj_get_placed_same. rewrite <- Hv. apply obj_get_delete_same.
  - split; [|discriminate]. intros _.
    match goal with |- context [obj_set visited ?k ?e] =>
      destruct (obj_set_place visited k e Hget) as (l1 & l2 & Hv & ->)
    end.
    rewrite Hv in Hget. rewrite (obj_get_placed_same _ _ _ _ Hget).
    rewrite (obj_delete_placed _ _ _ _ Hget). now symmetry.
Qed.

Lemma toggle_twice_witness :
  exists v1 v2 : Visited,
    toggleCountry false "app" (Some (mkUser "demo-user")) [] 1 island = SetVisited v1 /\
    toggleCountry false "app" (Some (mkUser "demo-user")) v1 2 island = SetVisited v2 /\
    v2 = [].
Proof.
  destruct (toggle_twice "app" (mkUser "demo-user") [] 1 2 island)
    as (v1 & v2 & H1 & H2 & Hback & _).
  - discriminate.
  - reflexivity.
  - exists v1, v2. split; [exact H1|]. split; [exact H2|]. now apply Hback.
Defined.

(** X24.  A country whose id is the name of a member of
    [Object.prototype] cannot be marked: [visited[id]] finds the
    inherited member, the toggle takes the country for visited and
    deletes its entry, and an object without an own entry for the id
    stays as it is. *)
Theorem prototype_named_country_cannot_be_marked (appId : string) (u : User)
  (visited : Visited) (now : Z) (feature : GeoJSONFeature) :
  is_prototype_member (id (properties feature)) = true ->
  obj_get visited (id (properties feature)) = None ->
  toggleCountry false appId (Some u) visited now feature = SetVisited visited.
Proof.
  intros Hproto Hget.
  assert (Hid : str_truthy (id (properties feature)) = true).
  { unfold is_prototype_member in Hproto. apply existsb_exists in Hproto as (m & Hm & E).
    apply String.eqb_eq in E. rewrite E.
    cbn in Hm. repeat (destruct Hm as [<- | Hm]; [reflexivity|]). contradiction. }
  rewrite (toggleCountry_local appId u visited now feature Hid).
  unfold truthy_member. rewrite Hget, Hproto.
  now rewrite (obj_delete_absent _ _ Hget).
Qed.

Lemma prototype_named_country_cannot_be_marked_witness :
  toggleCountry false "app" (Some (mkUser "demo-user")) [] 0
    (mkFeature (mkProperties "Island" "toString") (Some (Polygon (Some [triangle]))))
  = SetVisited [].
Proof.
  now apply prototype_named_country_cannot_be_marked.
Defined.

Lemma toggleById_agrees (firebaseAvailable : bool) (appId : string)
  (user : option User) (visited : Visited) (now : Z) (feature : GeoJSONFeature) :
  str_truthy (name (properties feature)) = true ->
  toggleCountry firebaseAvailable appId user visited now feature
  = toggleById firebaseAvailable appId user visited now
      (id (properties feature)) (name (properties feature)).
Proof.
  intros Hname. unfold toggleCountry, toggleById. now rewrite Hname.
Qed.

(** X12.  The list and the map toggle alike: for a feature with a non-empty
    name, and so for every sanitized feature, [toggleById] with the id and
    the name of the feature has the effect of [toggleCountry] on the
    feature, in both stores, signed in or not. *)
Theorem toggle_by_id_as_by_feature (firebaseAvailable : bool) (appId : string)
  (user : option User) (visited : Visited) (now : Z) :
  (forall feature : GeoJSONFeature,
     name (properties feature) <> ""%string ->
     toggleCountry firebaseAvailable appId user visited now feature
     = toggleById firebaseAvailable appId user visited now
         (id (properties feature)) (name (properties feature))) /\
  (forall (features : list RawFeature.t) (feature : GeoJSONFeature),
     In feature (sanitizedFeatures features) ->
     toggleCountry firebaseAvailable appId user visited now feature
     = toggleById firebaseAvailable appId user visited now
         (id (properties feature)) (name (properties feature))).
Proof.
  split.
  - intros feature Hname. apply toggleById_agrees. now apply str_truthy_not_empty.
  - intros features feature Hin. apply toggleById_agrees.
    now apply (sanitized_feature_truthy features feature Hin).
Qed.

Lemma toggle_by_id_as_by_feature_witness :
  toggleCountry true "app" (Some (mkUser "u1")) [] 5 island
  = toggleById true "app" (Some (mkUser "u1")) [] 5 "ISL" "Island".
Proof.
  apply (proj1 (toggle_by_id_as_by_feature true "app" (Some (mkUser "u1")) [] 5) island).
  discriminate.
Defined.

(** X13.  Once the drag flag is set no click marks a country: after a
    pointer session on a country in which some single move exceeded 2
    pixels in an axis, the click reaches no toggle and [visited] is what
    it was, with either store. *)
Theorem drag_never_toggles (sqrtQ : Q -> Q) (firebaseAvailable : bool)
  (appId : string) (user : option User) (now : Z) (visited : Visited)
  (down : MouseEvent.t) (moves : list (option DOMRect.t * MouseEvent.t))
  (mapRef : option DOMRect.t) (feature : GeoJSONFeature) (s : State) :
  some_move_exceeds (pos_of down) (map snd moves) = true ->
  let clicked := snd (run sqrtQ (session down moves mapRef feature) s) in
  clicked = [] /\
  toggle_all firebaseAvailable appId user now visited clicked = visited.
Proof.
  intros Hdrag clicked. unfold clicked.
  rewrite (proj2 (session_result sqrtQ down moves mapRef feature s)), Hdrag.
  split; reflexivity.
Qed.

Lemma drag_never_toggles_witness :
  let moves := [(Some rect_1000_500, MouseEvent.mk 105 100)] in
  let clicked :=
    snd (run isqrtQ
           (session (MouseEvent.mk 100 100) moves (Some rect_1000_500) island)
           initial) in
  clicked = [] /\
  toggle_all false "app" (Some (mkUser "demo-user")) 0 [] clicked = [].
Proof.
  intros moves clicked.
  apply (drag_never_toggles isqrtQ false "app" (Some (mkUser "demo-user")) 0 []
           (MouseEvent.mk 100 100) moves (Some rect_1000_500) island initial).
  reflexivity.
Defined.

(* ================================================================== *)
(** * Zooming at the limits and zooming repeatedly *)

Lemma zoomed_same_scale (k x y fx fy v : Q) (t' : Transform.t) :
  0 < k ->
  Qmax 1 (Qmin 8 v) == k ->
  zoomed k x y fx fy v t' ->
  same_transform k x y t'.
Proof.
  intros Hk Hv (k' & x' & y' & -> & Hk' & Hx & Hy & _).
  exists k', x', y'. split; [reflexivity|].
  assert (E : k' == k) by (now rewrite Hk').
  split; [exact E|].
  rewrite E in Hx, Hy. split.
  - rewrite Hx. field. lra.
  - rewrite Hy. field. lra.
Qed.

Lemma clamp_at_lower_limit (k factor : Q) :
  k == 1 -> factor <= 1 -> Qmax 1 (Qmin 8 (k * factor)) == k.
Proof.
  intros Hk Hf. rewrite Hk. apply Q.max_l.
  apply Qle_trans with (1 * factor); [apply Q.le_min_r | lra].
Qed.

Lemma clamp_at_upper_limit (k factor : Q) :
  k == 8 -> 1 <= factor -> Qmax 1 (Qmin 8 (k * factor)) == k.
Proof.
  intros Hk Hf. rewrite Hk.
  rewrite (Q.min_l 8 (8 * factor)) by lra.
  apply Q.max_r. lra.
Qed.

(** X14.  At a limit of the scale a further zoom changes nothing: with
    the scale 1 a zoom out, and with the scale 8 a zoom in, by the buttons
    or by the wheel, leave the scale as it is and, over exact arithmetic
    (up to rounding otherwise), the translation too. *)
Theorem zoom_at_limit_changes_nothing (s : State) (k x y : Q) :
  transform s = Transform.mk (Fin k) (Fin x) (Fin y) ->
  (forall factor : Q,
     (k == 1 /\ factor <= 1) \/ (k == 8 /\ 1 <= factor) ->
     same_transform k x y (transform (handleZoom (Fin factor) s))) /\
  (forall (rect : DOMRect.t) (e : WheelEvent.t),
     ~ DOMRect.width rect == 0 ->
     ~ DOMRect.height rect == 0 ->
     (k == 1 /\ 0 < WheelEvent.deltaY e) \/ (k == 8 /\ WheelEvent.deltaY e <= 0) ->
     same_transform k x y (transform (handleWheel (Some rect) e s))).
Proof.
  intros Ht. split.
  - intros factor Hlimit.
    assert (Hk : 0 < k) by (destruct Hlimit as [[E _] | [E _]]; rewrite E; reflexivity).
    apply (zoomed_same_scale k x y (MAP_WIDTH / 2) (MAP_HEIGHT / 2) (k * factor));
      [exact Hk | | now apply handleZoom_zoomed].
    destruct Hlimit as [[E Hf] | [E Hf]];
      [now apply clamp_at_lower_limit | now apply clamp_at_upper_limit].
  - intros rect e Hw Hh Hlimit.
    assert (Hk : 0 < k) by (destruct Hlimit as [[E _] | [E _]]; rewrite E; reflexivity).
    apply (zoomed_same_scale k x y (plane_x rect (WheelEvent.clientX e))
             (plane_y rect (WheelEvent.clientY e)) (k * wheel_factor e));
      [exact Hk | | now apply handleWheel_zoomed].
    unfold wheel_factor.
    destruct Hlimit as [[E Hd] | [E Hd]].
    + apply Qltb_lt in Hd. rewrite Hd. apply clamp_at_lower_limit; [exact E | discriminate].
    + apply Qltb_ge in Hd. rewrite Hd. apply clamp_at_upper_limit; [exact E | discriminate].
Qed.

Lemma zoom_at_limit_changes_nothing_witness :
  same_transform 1 0 0 (transform (handleZoom (Fin 0.8) initial)) /\
  same_transform 1 0 0
    (transform (handleWheel (Some rect_1000_500) (WheelEvent.mk 300 200 1) initial)).
Proof.
  destruct (zoom_at_limit_changes_nothing initial 1 0 0 eq_refl) as [Hbutton Hwheel].
  split.
  - apply Hbutton. left. split; [reflexivity | discriminate].
  - apply Hwheel; try (intros H; discriminate H).
    left. split; reflexivity.
Defined.

Section ZoomClicks.

Variable sqrtQ : Q -> Q.

Lemma zoom_clicks_keep_centre (clicks : list (option DOMRect.t * Q)) :
  forall (s : State) (k x y : Q),
    transform s = Transform.mk (Fin k) (Fin x) (Fin y) ->
    0 < k ->
    exists k' x' y' : Q,
      transform (fst (run sqrtQ (zoom_clicks clicks) s))
      = Transform.mk (Fin k') (Fin x') (Fin y') /\
      0 < k' /\
      (MAP_WIDTH / 2 - x') / k' == (MAP_WIDTH / 2 - x) / k /\
      (MAP_HEIGHT / 2 - y') / k' == (MAP_HEIGHT / 2 - y) / k.
Proof.
  induction clicks as [|[mapRef factor] rest IH]; intros s k x y Ht Hk.
  - exists k, x, y. split; [exact Ht|]. split; [exact Hk|]. split; reflexivity.
  - cbn [zoom_clicks map fst snd]. rewrite run_step. cbn [step fst].
    destruct (handleZoom_zoomed s k x y factor Ht Hk)
      as (k1 & x1 & y1 & Ht1 & Hk1 & _ & _ & Hx1 & Hy1).
    assert (Hpos : 0 < k1).
    { rewrite Hk1. apply Qlt_le_trans with 1; [reflexivity | apply Q.le_max_l]. }
    destruct (IH _ k1 x1 y1 Ht1 Hpos) as (k' & x' & y' & Ht' & Hk' & Hx' & Hy').
    exists k', x', y'. split; [exact Ht'|]. split; [exact Hk'|].
    split; [now rewrite Hx', Hx1 | now rewrite Hy', Hy1].
Qed.

(** X15.  However often the zoom buttons are clicked, the point of the
    map at the centre of the canvas stays there: after any sequence of
    button zooms the plane coordinate mapped to the centre is what it was,
    exactly over exact arithmetic (to floating-point tolerance
    otherwise). *)
Theorem repeated_zoom_keeps_centre (clicks : list (option DOMRect.t * Q))
  (s : State) (k x y : Q) :
  transform s = Transform.mk (Fin k) (Fin x) (Fin y) ->
  0 < k ->
  exists k' x' y' : Q,
    transform (fst (run sqrtQ (zoom_clicks clicks) s))
    = Transform.mk (Fin k') (Fin x') (Fin y') /\
    (MAP_WIDTH / 2 - x') / k' == (MAP_WIDTH / 2 - x) / k /\
    (MAP_HEIGHT / 2 - y') / k' == (MAP_HEIGHT / 2 - y) / k.
Proof.
  intros Ht Hk.
  destruct (zoom_clicks_keep_centre clicks s k x y Ht Hk)
    as (k' & x' & y' & Ht' & _ & Hx & Hy).
  now exists k', x', y'.
Qed.

End ZoomClicks.

Lemma repeated_zoom_keeps_centre_witness :
  exists k' x' y' : Q,
    transform (fst (run isqrtQ
                      (zoom_clicks [(None, 1.2); (None, 1.2); (None, 0.8)]) initial))
    = Transform.mk (Fin k') (Fin x') (Fin y') /\
    (MAP_WIDTH / 2 - x') / k' == (MAP_WIDTH / 2 - 0) / 1 /\
    (MAP_HEIGHT / 2 - y') / k' == (MAP_HEIGHT / 2 - 0) / 1.
Proof.
  apply (repeated_zoom_keeps_centre isqrtQ _ initial 1 0 0); reflexivity.
Defined.

(* ================================================================== *)
(** * Panning *)

Lemma last_nonempty_default {A : Type} (l : list A) :
  forall a d d' : A, last (a :: l) d = last (a :: l) d'.
Proof.
  induction l as [|b rest IH]; intros a d d'; [reflexivity|].
  change (last (a :: b :: rest) d) with (last (b :: rest) d).
  change (last (a :: b :: rest) d') with (last (b :: rest) d').
  apply IH.
Qed.

Lemma last_cons_default {A : Type} (a d : A) (l : list A) :
  last (a :: l) d = last l a.
Proof.
  destruct l as [|b rest]; [reflexivity|].
  change (last (a :: b :: rest) d) with (last (b :: rest) d).
  apply last_nonempty_default.
Qed.

Section Pan.

Variable sqrtQ : Q -> Q.

Lemma moves_translate (mapRef : option DOMRect.t) (moves : list MouseEvent.t) :
  has_width mapRef ->
  forall (s : State) (k x y : Q),
    isDragging s = true ->
    transform s = Transform.mk (Fin k) (Fin x) (Fin y) ->
    let target := last moves (MouseEvent.mk (Pos.x (lastMousePos s)) (Pos.y (lastMousePos s))) in
    exists x' y' : Q,
      transform (fst (run sqrtQ (map (fun e => (mapRef, MouseMove e)) moves) s))
      = Transform.mk (Fin k) (Fin x') (Fin y') /\
      x' == x + (MouseEvent.clientX target - Pos.x (lastMousePos s)) * pan_ratio mapRef /\
      y' == y + (MouseEvent.clientY target - Pos.y (lastMousePos s)) * pan_ratio mapRef.
Proof.
  intros Hw. induction moves as [|e rest IH]; intros s k x y Hd Ht target.
  - exists x, y. split; [exact Ht|]. unfold target. cbn. split; ring.
  - cbn [map]. rewrite run_step. cbn [step fst].
    destruct (handleMouseMove_dragging mapRef e s Hd) as (Hd' & Hl & _).
    assert (Ht' : transform (handleMouseMove mapRef (OfMouse e) s)
                  = Transform.mk (Fin k)
                      (Fin (x + (MouseEvent.clientX e - Pos.x (lastMousePos s))
                                * pan_ratio mapRef))
                      (Fin (y + (MouseEvent.clientY e - Pos.y (lastMousePos s))
                                * pan_ratio mapRef))).
    { rewrite (handleMouseMove_transform mapRef (OfMouse e) s Hd), Ht.
      destruct mapRef as [rect|]; cbn [pan_ratio has_width] in *.
      - now rewrite (div_Fin _ _ Hw).
      - reflexivity. }
    destruct (IH _ k _ _ Hd' Ht') as (x' & y' & Hrun & Hx & Hy).
    exists x', y'. split; [exact Hrun|].
    unfold target. rewrite last_cons_default.
    rewrite Hl in Hx, Hy. cbn [pos_of Pos.x Pos.y] in Hx, Hy.
    replace (last rest e)
      with (last rest (MouseEvent.mk (MouseEvent.clientX e) (MouseEvent.clientY e)))
      by (now destruct e).
    split; [rewrite Hx | rewrite Hy]; ring.
Qed.

(** X16.  The map follows the pointer: after a press and any number of
    moves, with the map element missing or of non-zero width, the scale is
    what it was and the translation has grown by the displacement of the
    pointer from the press to the last move, times the ratio
    [MAP_WIDTH / rect.width] (1 without the element), in both axes,
    whatever path the pointer took; exactly over exact arithmetic, up to
    the rounding of each move otherwise. *)
Theorem pan_follows_pointer (mapRef : option DOMRect.t) (down : MouseEvent.t)
  (moves : list MouseEvent.t) (s : State) (k x y : Q) :
  has_width mapRef ->
  transform s = Transform.mk (Fin k) (Fin x) (Fin y) ->
  let target := last moves down in
  exists x' y' : Q,
    transform (fst (run sqrtQ (press_and_moves mapRef down moves) s))
    = Transform.mk (Fin k) (Fin x') (Fin y') /\
    x' == x + (MouseEvent.clientX target - MouseEvent.clientX down) * pan_ratio mapRef /\
    y' == y + (MouseEvent.clientY target - MouseEvent.clientY down) * pan_ratio mapRef.
Proof.
  intros Hw Ht target. unfold press_and_moves. rewrite run_step. cbn [step fst].
  destruct (moves_translate mapRef moves Hw (handleMouseDown (OfMouse down) s)
              k x y eq_refl Ht) as (x' & y' & Hrun & Hx & Hy).
  exists x', y'. split; [exact Hrun|].
  cbn [handleMouseDown set_lastMousePos lastMousePos clientX_of clientY_of Pos.x Pos.y]
    in Hx, Hy.
  unfold target.
  replace (last moves down)
    with (last moves (MouseEvent.mk (MouseEvent.clientX down) (MouseEvent.clientY down)))
    by (now destruct down).
  split; assumption.
Qed.

End Pan.

Lemma pan_follows_pointer_witness :
  exists x' y' : Q,
    transform (fst (run isqrtQ
      (press_and_moves (Some rect_1000_500) (MouseEvent.mk 100 100)
         [MouseEvent.mk 130 90; MouseEvent.mk 110 140]) initial))
    = Transform.mk (Fin 1) (Fin x') (Fin y') /\
    x' == 0 + (110 - 100) * pan_ratio (Some rect_1000_500) /\
    y' == 0 + (140 - 100) * pan_ratio (Some rect_1000_500).
Proof.
  apply (pan_follows_pointer isqrtQ (Some rect_1000_500) (MouseEvent.mk 100 100)
           [MouseEvent.mk 130 90; MouseEvent.mk 110 140] initial 1 0 0).
  - intros H; discriminate H.
  - reflexivity.
Defined.

(* ================================================================== *)
(** * Moves without a press *)

Section Idle.

Variable sqrtQ : Q -> Q.

Lemma move_event_idle (mapRef : option DOMRect.t) (ev : Event) (s : State) :
  is_move_event ev = true ->
  isDragging s = false ->
  pinchDistanceRef s = None ->
  step sqrtQ mapRef ev s = (s, []).
Proof.
  intros Hev Hd Hp. destruct ev; try discriminate Hev; cbn [step].
  - unfold handleMouseMove. now rewrite Hd.
  - unfold handleTouchMove. rewrite Hp.
    assert (Hmove : handleMouseMove mapRef (OfTouch touches) s = s).
    { unfold handleMouseMove. now rewrite Hd. }
    rewrite Hmove. now destruct (TouchList.others touches) as [|b [|c rest]].
Qed.

Lemma moves_idle (inputs : list (option DOMRect.t * Event)) (s : State) :
  forallb (fun i => is_move_event (snd i)) inputs = true ->
  isDragging s = false ->
  pinchDistanceRef s = None ->
  run sqrtQ inputs s = (s, []).
Proof.
  intros Hall Hd Hp. induction inputs as [|[mapRef ev] rest IH]; [reflexivity|].
  cbn [forallb snd] in Hall. apply andb_true_iff in Hall as [Hev Hall].
  rewrite run_step, (move_event_idle mapRef ev s Hev Hd Hp). cbn [fst snd].
  now rewrite (IH Hall).
Qed.

(** X17.  Moves without a press change nothing: in the initial state, after a
    mouse release that follows no pinch, and after a touch end that
    leaves fewer than two fingers, any sequence of mouse moves and touch
    moves leaves the whole state as it is and toggles nothing, until the
    next press. *)
Theorem moves_without_press_change_nothing
  (inputs : list (option DOMRect.t * Event)) :
  forallb (fun i => is_move_event (snd i)) inputs = true ->
  run sqrtQ inputs initial = (initial, []) /\
  (forall s : State,
     pinchDistanceRef s = None ->
     run sqrtQ inputs (handleMouseUp s) = (handleMouseUp s, [])) /\
  (forall (touches : list Touch.t) (s : State),
     (List.length touches < 2)%nat ->
     run sqrtQ inputs (handleTouchEnd touches s) = (handleTouchEnd touches s, [])).
Proof.
  intros Hall. split; [|split].
  - now apply moves_idle.
  - intros s Hp. now apply moves_idle.
  - intros touches s Hlen. apply Nat.ltb_lt in Hlen.
    apply moves_idle; [exact Hall | |]; unfold handleTouchEnd; now rewrite Hlen.
Qed.

End Idle.

Lemma moves_without_press_change_nothing_witness :
  let inputs :=
    [(Some rect_1000_500, MouseMove (MouseEvent.mk 10 10));
     (Some rect_1000_500, TouchMove (TouchList.mk (Touch.mk 0 0) [Touch.mk 30 40]));
     (None, MouseMove (MouseEvent.mk 500 10))] in
  run isqrtQ inputs initial = (initial, []).
Proof.
  intros inputs.
  exact (proj1 (moves_without_press_change_nothing isqrtQ inputs eq_refl)).
Defined.

(* ================================================================== *)
(** * Pinching *)

Section Pinch.

Variable sqrtQ : Q -> Q.

Lemma touch_move_keeps_pinching (d0 k0 : Q) (mapRef : option DOMRect.t)
  (ev : Event) (s : State) :
  is_touch_move ev = true ->
  pinching d0 k0 s ->
  pinching d0 k0 (fst (step sqrtQ mapRef ev s)) /\ snd (step sqrtQ mapRef ev s) = [].
Proof.
  intros Hev Hs. destruct ev; try discriminate Hev. cbn [step fst snd].
  split; [|reflexivity].
  assert (Hmove : handleMouseMove mapRef (OfTouch touches) s = s).
  { unfold handleMouseMove. destruct Hs as (_ & _ & Hd & _). now rewrite Hd. }
  unfold handleTouchMove. rewrite Hmove.
  destruct (TouchList.others touches) as [|b [|c rest]]; try exact Hs.
  destruct (pinchDistanceRef s) as [pinchDistance|]; try exact Hs.
  destruct mapRef as [rect|]; try exact Hs.
  destruct (truthy pinchDistance); exact Hs.
Qed.

Lemma touch_moves_keep_pinching (d0 k0 : Q) (moves : list (option DOMRect.t * Event)) :
  forall s : State,
    forallb (fun i => is_touch_move (snd i)) moves = true ->
    pinching d0 k0 s ->
    pinching d0 k0 (fst (run sqrtQ moves s)) /\ snd (run sqrtQ moves s) = [].
Proof.
  induction moves as [|[mapRef ev] rest IH]; intros s Hall Hs.
  - split; [exact Hs | reflexivity].
  - cbn [forallb snd] in Hall. apply andb_true_iff in Hall as [Hev Hall].
    destruct (touch_move_keeps_pinching d0 k0 mapRef ev s Hev Hs) as [Hs1 Ho1].
    rewrite run_step. cbn [fst snd]. rewrite Ho1. exact (IH _ Hall Hs1).
Qed.

(** X18.  The scale of a pinch follows the fingers, not the number of moves:
    after two fingers land at a non-zero distance [d0] with the scale
    [k0], and after any touch moves, a two-finger move at the distance
    [d] leaves the scale [clamp(k0 * d / d0, 1, 8)]; the gesture sets no
    drag flag and toggles nothing. *)
Theorem pinch_scale_follows_fingers (s0 : State) (k0 d0 : Q)
  (a0 b0 a b : Touch.t) (mapRef0 : option DOMRect.t) (rect : DOMRect.t)
  (moves : list (option DOMRect.t * Event)) :
  Transform.k (transform s0) = Fin k0 ->
  getTouchDistance sqrtQ a0 b0 = Fin d0 ->
  ~ d0 == 0 ->
  forallb (fun i => is_touch_move (snd i)) moves = true ->
  let inputs :=
    (mapRef0, TouchStart (TouchList.mk a0 [b0]))
      :: moves ++ [(Some rect, TouchMove (TouchList.mk a [b]))] in
  exists d k : Q,
    getTouchDistance sqrtQ a b = Fin d /\
    Transform.k (transform (fst (run sqrtQ inputs s0))) = Fin k /\
    k == Qmax 1 (Qmin 8 (k0 * (d / d0))) /\
    isDragRef (fst (run sqrtQ inputs s0)) = false /\
    snd (run sqrtQ inputs s0) = [].
Proof.
  intros Hk0 Hd0 Hnz Hall inputs.
  eexists. eexists. split; [apply getTouchDistance_Fin|].
  unfold inputs. rewrite run_step. cbn [step fst snd app].
  rewrite run_app. cbn [fst snd].
  assert (Hstart : pinching d0 k0
            (handleTouchStart sqrtQ (TouchList.mk a0 [b0]) s0)).
  { unfold handleTouchStart. cbn [TouchList.others TouchList.item0].
    unfold pinching, setIsDragging, set_isDragRef, set_pinchStartScaleRef,
      set_pinchDistanceRef.
    cbn [pinchDistanceRef pinchStartScaleRef isDragging isDragRef transform].
    rewrite Hd0, Hk0. repeat split. }
  destruct (touch_moves_keep_pinching d0 k0 moves _ Hall Hstart)
    as [(Hpd & Hps & Hdrag & Hflag) Hout].
  rewrite Hout.
  set (s1 := fst (run sqrtQ moves (handleTouchStart sqrtQ (TouchList.mk a0 [b0]) s0))) in *.
  cbn [run step fst snd app].
  unfold handleTouchMove. cbn [TouchList.others TouchList.item0].
  rewrite Hpd, (truthy_Fin _ Hnz).
  unfold pinch, setTransform, zoom_about. cbn [transform Transform.k isDragRef].
  rewrite Hps, getTouchDistance_Fin, (div_Fin _ _ Hnz). fin_arith.
  rewrite clamp_scale_Fin.
  split; [reflexivity|]. split; [apply Qclamp_max_min|].
  split; [exact Hflag | reflexivity].
Qed.

End Pinch.

Lemma pinch_scale_follows_fingers_witness :
  let inputs :=
    (Some rect_1000_500, TouchStart (TouchList.mk (Touch.mk 100 100) [Touch.mk 103 104]))
      :: [(Some rect_1000_500, TouchMove (TouchList.mk (Touch.mk 100 100) [Touch.mk 109 112]))]
      ++ [(Some rect_1000_500, TouchMove (TouchList.mk (Touch.mk 100 100) [Touch.mk 106 108]))] in
  exists d k : Q,
    getTouchDistance isqrtQ (Touch.mk 100 100) (Touch.mk 106 108) = Fin d /\
    Transform.k (transform (fst (run isqrtQ inputs initial))) = Fin k /\
    k == Qmax 1 (Qmin 8 (1 * (d / 5))) /\
    isDragRef (fst (run isqrtQ inputs initial)) = false /\
    snd (run isqrtQ inputs initial) = [].
Proof.
  apply (pinch_scale_follows_fingers isqrtQ initial 1 5).
  - reflexivity.
  - reflexivity.
  - intros H; discriminate H.
  - reflexivity.
Defined.

(* ================================================================== *)
(** * Stroke width and font size *)

(** X19.  Strokes and labels never vanish nor blow up: after any
    sequence of events from the initial state the stroke width [0.5 / k]
    and the font size [8 / k] are finite and lie in [1/16, 1/2] and in
    [1, 8]. *)
Theorem stroke_and_font_constant_on_screen (sqrtQ : Q -> Q)
  (inputs : list (option DOMRect.t * Event)) :
  let t := transform (fst (run sqrtQ inputs initial)) in
  exists w f : Q,
    strokeWidth t = Fin w /\
    fontSize t = Fin f /\
    (1 # 16) <= w <= (1 # 2) /\ 1 <= f <= 8.
Proof.
  intros t.
  destruct (run_invariant sqrtQ inputs initial initial_invariant)
    as [(k & Hk & Hlo & Hhi) _].
  fold t in Hk.
  assert (Hnz : ~ k == 0) by lra.
  exists (0.5 / k), (8 / k).
  unfold strokeWidth, fontSize. rewrite Hk, !(div_Fin _ _ Hnz).
  split; [reflexivity|]. split; [reflexivity|].
  assert (Hinv : 0 < / k) by (apply Qinv_lt_0_compat; lra).
  assert (Hone : k * / k == 1) by (field; exact Hnz).
  unfold Qdiv. split; split; nra.
Qed.

(* ================================================================== *)
(** * The commands of a whole path *)

Lemma flat_map_concat {A B : Type} (g : A -> list B) (ls : list (list A)) :
  flat_map (flat_map g) ls = flat_map g (List.concat ls).
Proof.
  induction ls as [|l rest IH]; [reflexivity|].
  cbn [flat_map List.concat]. now rewrite flat_map_app, IH.
Qed.

Lemma path_cmds_rings (feature : GeoJSONFeature) :
  path_cmds feature = flat_map ring_cmds (rings_of feature).
Proof.
  unfold path_cmds, rings_of.
  destruct (geometry feature) as [[[rings|]|[polys|]|type has]|]; try reflexivity.
  apply flat_map_concat.
Qed.

Lemma count_app (f : PathCmd -> bool) (cs1 cs2 : list PathCmd) :
  count f (cs1 ++ cs2) = (count f cs1 + count f cs2)%nat.
Proof. unfold count. now rewrite filter_app, length_app. Qed.

Lemma point_cmds_kinds (coords : list Point) :
  forall i : nat,
    count is_close (point_cmds coords i) = 0%nat /\
    (count is_move (point_cmds coords i) + count is_line (point_cmds coords i))%nat
    = valid_count coords.
Proof.
  induction coords as [|point rest IH]; intros i; [split; reflexivity|].
  destruct (IH (S i)) as [IHc IHm].
  cbn [point_cmds]. rewrite !count_app, IHc.
  unfold valid_count in *. cbn [filter].
  destruct point as [|[|lon [|lat tl]]]; cbn [point_cmd valid_point app];
    try (split; [reflexivity | exact IHm]).
  destruct (project (Fin lon) (Fin lat)) as [x y].
  destruct (Nat.eqb i 0); cbn; split; try reflexivity; lia.
Qed.

Lemma ring_cmds_counts (ring : Ring) :
  count is_close (ring_cmds ring) = 1%nat /\
  count is_move (ring_cmds ring) = (if starts_valid ring then 1 else 0)%nat /\
  (count is_move (ring_cmds ring) + count is_line (ring_cmds ring))%nat
  = valid_count ring.
Proof.
  unfold ring_cmds. rewrite !count_app.
  destruct (point_cmds_kinds ring 0) as [Hc Hm].
  split; [now rewrite Hc|]. split; [|cbn; lia].
  destruct ring as [|point rest]; [reflexivity|].
  cbn [point_cmds starts_valid]. rewrite !count_app.
  rewrite (proj1 (point_cmds_later rest 0)).
  destruct point as [|[|lon [|lat tl]]]; reflexivity.
Qed.

(** X20.  The commands of a path, counted: the text of [createPath] is the
    text of its commands; there is one close for each ring, one move for
    each ring that begins with a valid point, and one move or line for
    each valid point, over all rings of the polygon or of the polygons of
    the multipolygon. *)
Theorem path_command_counts (toString : jsnum -> string) (feature : GeoJSONFeature) :
  createPath toString feature = render toString (path_cmds feature) /\
  count is_close (path_cmds feature) = List.length (rings_of feature) /\
  count is_move (path_cmds feature) = List.length (filter starts_valid (rings_of feature)) /\
  (count is_move (path_cmds feature) + count is_line (path_cmds feature))%nat
  = list_sum (map valid_count (rings_of feature)).
Proof.
  split; [apply createPath_render|].
  rewrite path_cmds_rings.
  induction (rings_of feature) as [|ring rest (IHc & IHm & IHl)];
    [repeat split|].
  cbn [flat_map map list_sum List.length filter]. rewrite !count_app.
  destruct (ring_cmds_counts ring) as (Hc & Hm & Hl).
  rewrite Hc, IHc. split; [reflexivity|]. split.
  - rewrite Hm, IHm. now destruct (starts_valid ring).
  - cbn [list_sum fold_right]. fold (list_sum (map valid_count rest)). lia.
Qed.

Lemma append_empty_l (s1 s2 : string) : (s1 ++ s2)%string = ""%string -> s1 = ""%string.
Proof. destruct s1; [reflexivity | discriminate]. Qed.

(** X21.  The path is empty exactly when there is nothing to draw: the text of
    [createPath] is the empty string if and only if the feature has no
    ring at all (no geometry, no coordinates, another type, or no ring in
    its polygons). *)
Theorem empty_path_iff_no_ring (toString : jsnum -> string) (feature : GeoJSONFeature) :
  createPath toString feature = ""%string <-> rings_of feature = [].
Proof.
  rewrite createPath_render, path_cmds_rings.
  destruct (rings_of feature) as [|ring rest].
  - split; reflexivity.
  - split; [|discriminate]. intros H. exfalso.
    cbn [flat_map] in H. rewrite render_app, <- drawPolygon_render in H.
    apply append_empty_l in H. now apply (drawPolygon_not_empty toString ring).
Qed.

(** X22.  A MultiPolygon is drawn as the Polygon of all its rings: its path is
    the path of the polygon whose rings are the rings of its polygons, in
    order. *)
Theorem multipolygon_path_is_path_of_rings (toString : jsnum -> string)
  (props : CountryProperties) (polys : list (list Ring)) :
  createPath toString (multipolygon_feature props polys)
  = createPath toString (polygon_feature props (List.concat polys)).
Proof.
  rewrite !createPath_render, !path_cmds_rings. reflexivity.
Qed.

(* ================================================================== *)
(** * One finger and the mouse *)

Section OneFinger.

Variable sqrtQ : Q -> Q.

Lemma handleMouseMove_same_view (mapRef : option DOMRect.t) (e e' : PointerEvent)
  (s s' : State) :
  clientX_of e = clientX_of e' ->
  clientY_of e = clientY_of e' ->
  same_view s s' ->
  same_view (handleMouseMove mapRef e s) (handleMouseMove mapRef e' s').
Proof.
  intros Hx Hy (Ht & Hd & Hl & Hf).
  unfold handleMouseMove. rewrite <- Hx, <- Hy, <- Hd, <- Hl.
  destruct (negb (isDragging s)); [now repeat split|].
  destruct (_ || _);
    unfold same_view, set_lastMousePos, setTransform, set_isDragRef;
    cbn [transform isDragging lastMousePos isDragRef];
    rewrite <- Ht; repeat split; assumption.
Qed.

Lemma setTransform_same_view (f : Transform.t -> Transform.t) (s s' : State) :
  same_view s s' -> same_view (setTransform f s) (setTransform f s').
Proof.
  intros (Ht & Hd & Hl & Hf). unfold same_view, setTransform.
  cbn [transform isDragging lastMousePos isDragRef]. rewrite Ht. now repeat split.
Qed.

Lemma step_same_view (mapRef : option DOMRect.t) (ev : Event) (s s' : State) :
  is_touch_event ev = false ->
  same_view s s' ->
  same_view (fst (step sqrtQ mapRef ev s)) (fst (step sqrtQ mapRef (as_touch ev) s')) /\
  snd (step sqrtQ mapRef ev s) = snd (step sqrtQ mapRef (as_touch ev) s').
Proof.
  intros Hev Hs. destruct ev; try discriminate Hev; cbn [as_touch step fst snd];
    (split; [|try reflexivity]).
  - now apply setTransform_same_view.
  - now apply setTransform_same_view.
  - unfold handleWheel. destruct mapRef; [now apply setTransform_same_view | exact Hs].
  - destruct Hs as (Ht & Hd & Hl & Hf). now repeat split.
  - unfold handleTouchMove. cbn [touch_at TouchList.others].
    now apply handleMouseMove_same_view.
  - destruct Hs as (Ht & Hd & Hl & Hf). now repeat split.
  - destruct Hs as (Ht & Hd & Hl & Hf). now repeat split.
  - exact Hs.
  - unfold handleCountryClick. destruct Hs as (_ & _ & _ & Hf). now rewrite Hf.
Qed.

Lemma run_same_view (inputs : list (option DOMRect.t * Event)) :
  forall s s' : State,
    forallb (fun i => negb (is_touch_event (snd i))) inputs = true ->
    same_view s s' ->
    same_view (fst (run sqrtQ inputs s))
              (fst (run sqrtQ (map (fun i => (fst i, as_touch (snd i))) inputs) s')) /\
    snd (run sqrtQ inputs s)
    = snd (run sqrtQ (map (fun i => (fst i, as_touch (snd i))) inputs) s').
Proof.
  induction inputs as [|[mapRef ev] rest IH]; intros s s' Hall Hs.
  - split; [exact Hs | reflexivity].
  - cbn [forallb snd] in Hall. apply andb_true_iff in Hall as [Hev Hall].
    apply negb_true_iff in Hev.
    destruct (step_same_view mapRef ev s s' Hev Hs) as [Hs1 Ho1].
    cbn [map fst snd]. rewrite !run_step. cbn [fst snd].
    destruct (IH _ _ Hall Hs1) as [Hs2 Ho2].
    split; [exact Hs2 | now rewrite Ho1, Ho2].
Qed.

(** X23.  One finger does what the mouse does: a sequence of mouse and button
    events, and the same sequence with every mouse down, move and up
    replaced by the touch start, move and end of one finger at the same
    positions, give from the same state the same transform, the same drag
    flag and the same toggled countries. *)
Theorem one_finger_as_mouse (inputs : list (option DOMRect.t * Event)) (s : State) :
  forallb (fun i => negb (is_touch_event (snd i))) inputs = true ->
  let by_mouse := run sqrtQ inputs s in
  let by_finger := run sqrtQ (map (fun i => (fst i, as_touch (snd i))) inputs) s in
  transform (fst by_finger) = transform (fst by_mouse) /\
  isDragRef (fst by_finger) = isDragRef (fst by_mouse) /\
  snd by_finger = snd by_mouse.
Proof.
  intros Hall by_mouse by_finger.
  assert (Hs : same_view s s) by (now repeat split).
  destruct (run_same_view inputs s s Hall Hs) as [(Ht & _ & _ & Hf) Ho].
  split; [now symmetry|]. split; now symmetry.
Qed.

End OneFinger.

Lemma one_finger_as_mouse_witness :
  let inputs :=
    [(Some rect_1000_500, MouseDown (MouseEvent.mk 100 100));
     (Some rect_1000_500, MouseMove (MouseEvent.mk 101 101));
     (Some rect_1000_500, MouseUp);
     (Some rect_1000_500, CountryClick island)] in
  snd (run isqrtQ (map (fun i => (fst i, as_touch (snd i))) inputs) initial)
  = snd (run isqrtQ inputs initial).
Proof.
  intros inputs.
  exact (proj2 (proj2 (one_finger_as_mouse isqrtQ inputs initial eq_refl))).
Defined.

(* ================================================================== *)
(** * Instances *)

Lemma project_orientation_witness :
  exists x1 y1 x2 y2 : Q,
    project (Fin 2) (Fin (-34)) = (Fin x1, Fin y1) /\
    project (Fin 151) (Fin 48) = (Fin x2, Fin y2) /\
    x1 <= x2 /\ y2 <= y1.
Proof.
  destruct (project_orientation 2 (-34) 151 48)
    as (x1 & y1 & x2 & y2 & H1 & H2 & Hx & Hy).
  exists x1, y1, x2, y2. split; [exact H1|]. split; [exact H2|].
  split; [apply Hx | apply Hy]; discriminate.
Defined.

Lemma label_anchor_throws_on_null_point_witness :
  getLabelPosition
    (polygon_feature (mkProperties "Island" "ISL") [[PArr [0; 0]; PNull]; triangle])
  = Throws.
Proof.
  apply label_anchor_throws_on_null_point. right. now left.
Defined.

Lemma empty_path_iff_no_ring_witness :
  createPath show_number (multipolygon_feature (mkProperties "Island" "ISL") [[]; []])
  = ""%string.
Proof.
  now apply empty_path_iff_no_ring.
Defined.
